(** * Fragment pipeline: chunker, merger and concurrent extraction pool

    Shallow embedding of
    - [src/chunked_news_extraction.py]: [split_text_into_chunks],
      [extract_from_chunk], [merge_news_results], [run_news_extraction];
    - [src/test/news_extraction_playwright_test.py]: [NewsExtractor.process_chunk],
      [NewsExtractor.consolidate_results], [NewsExtractor.run].

    Python [str] is a sequence of Unicode code points, [int] is unbounded:
    strings are lists of code points ([N]), integers are [Z]. *)

From Stdlib Require Import String Ascii.
From stdpp Require Import base numbers option list sets gmap relations.

Open Scope Z_scope.

(** ** Python values shared by both programs *)

Definition codepoint := N.
Abbreviation str := (list codepoint).

(** Exceptions: the one the specification names for a bad configuration,
    and the two the collaborators raise. *)
Inductive exn :=
  | ConfigurationError      (* named by the specification only *)
  | InvokeError             (* any exception out of [chain.invoke]/[ainvoke] *)
  | OutputParserException.  (* [parser.parse] rejected the model output *)

(** Outcome of running a Python function under a step budget: it returns, it
    raises, or the budget is exhausted before it finishes. *)
Inductive outcome (A : Type) :=
  | Returns (a : A)
  | Raises (e : exn)
  | OutOfFuel.
Arguments Returns {A} a.
Arguments Raises {A} e.
Arguments OutOfFuel {A}.

Global Instance exn_eq_dec : EqDecision exn.
Proof. solve_decision. Defined.

(** Result of a call that comes back: a value or an exception. *)
Inductive result (A : Type) :=
  | Ok (a : A)
  | Err (e : exn).
Arguments Ok {A} a.
Arguments Err {A} e.

Definition result_bind {A B} (r : result A) (k : A → result B) : result B :=
  match r with
  | Ok a => k a
  | Err e => Err e
  end.

Notation "x ←ᵣ r ; k" := (result_bind r (λ x, k))
  (at level 20, r at level 100, k at level 200, right associativity,
   format "x  ←ᵣ  r ;  '/' k").

(** [len(text)] *)
Definition len {A} (text : list A) : Z := Z.of_nat (length text).

(** [text[start:stop]]: negative indices count from the end, then both are
    clamped to [0, len]; an inverted range is empty. *)
Definition adjust_index (n i : Z) : Z :=
  if i <? 0 then Z.max 0 (i + n) else Z.min i n.

Definition slice {A} (text : list A) (start stop : Z) : list A :=
  let lo := adjust_index (len text) start in
  let hi := adjust_index (len text) stop in
  take (Z.to_nat (hi - lo)) (drop (Z.to_nat lo) text).

(** A literal of the source, read as code points (ASCII literals only). *)
Definition of_ascii (s : string) : str :=
  N_of_ascii <$> list_ascii_of_string s.

(** [bool(s)] for a string: the empty string is falsy. *)
Definition truthy (s : str) : bool :=
  match s with [] => false | _ :: _ => true end.

(** The code points [str.strip()] removes: those for which Python's
    [str.isspace] holds. *)
Definition isspace (c : codepoint) : bool :=
  ((9 <=? c) && (c <=? 13) || (28 <=? c) && (c <=? 32)
   || (c =? 133) || (c =? 160) || (c =? 5760)
   || (8192 <=? c) && (c <=? 8202)
   || (c =? 8232) || (c =? 8233) || (c =? 8239) || (c =? 8287)
   || (c =? 12288))%N.

Fixpoint lstrip (s : str) : str :=
  match s with
  | c :: s' => if isspace c then lstrip s' else s
  | [] => []
  end.

Definition rstrip (s : str) : str := reverse (lstrip (reverse s)).

(** [s.strip()] *)
Definition strip (s : str) : str := rstrip (lstrip s).

(** [str.lower] is a table of the Unicode database; the development takes
    it as a parameter [lower : str → str]. On ASCII text it is the map
    below, which is all the concrete examples need. *)
Definition ascii_lower (c : codepoint) : codepoint :=
  if ((65 <=? c) && (c <=? 90))%N then (c + 32)%N else c.

Definition lowers_ascii (lower : str → str) : Prop :=
  ∀ s, Forall (λ c, (c < 128)%N) s → lower s = ascii_lower <$> s.

(** The instance used to run the examples: ASCII letters are lowered, every
    other code point is kept. *)
Definition lower_ascii_only (s : str) : str := ascii_lower <$> s.

(** The [News] model: both programs declare the same three list fields. *)
Record News := mkNews {
  companies : list str;
  persons : list str;
  events : list str;
}.

(** [News()]: every field takes its [default_factory=list]. *)
Definition News_default : News := mkNews [] [] [].

(** Attribute access on a [News] object: a pydantic model has its declared
    fields and no others. *)
Inductive pyvalue :=
  | PyBool (b : bool)
  | PyList (l : list str).

Definition model_dump (n : News) : list (string * pyvalue) :=
  [("companies"%string, PyList (companies n));
   ("persons"%string, PyList (persons n));
   ("events"%string, PyList (events n))].

Definition getattr (n : News) (name : string) : option pyvalue :=
  (snd ∘ snd) <$> list_find (λ kv, fst kv = name) (model_dump n).

(** ** [src/chunked_news_extraction.py] *)

Module Chunked.

Definition CHUNK_SIZE : Z := 2000.
Definition CHUNK_OVERLAP : Z := 100.

(** The [while start < len(text)] loop of [split_text_into_chunks]; one unit
    of fuel per evaluation of the loop test. *)
Fixpoint split_loop {A} (fuel : nat) (text : list A) (chunk_size overlap : Z)
    (start : Z) (chunks : list (list A)) : outcome (list (list A)) :=
  match fuel with
  | O => OutOfFuel
  | S fuel' =>
      if start <? len text then
        let end_ := start + chunk_size in
        let chunk := slice text start end_ in
        split_loop fuel' text chunk_size overlap (end_ - overlap) (chunks ++ [chunk])
      else Returns chunks
  end.

Definition split_text_into_chunks {A} (fuel : nat) (text : list A)
    (chunk_size overlap : Z) : outcome (list (list A)) :=
  split_loop fuel text chunk_size overlap 0 [].

(** The [Chunk] of the data model: the loop above with the offsets of every
    emitted fragment recorded next to its text. *)
Record Chunk (A : Type) := mkChunk {
  index : nat;
  chunk_text : list A;
  start_offset : Z;
  end_offset : Z;
}.
Arguments mkChunk {A} _ _ _ _.
Arguments index {A} _.
Arguments chunk_text {A} _.
Arguments start_offset {A} _.
Arguments end_offset {A} _.

Fixpoint split_trace {A} (fuel : nat) (text : list A) (chunk_size overlap : Z)
    (start : Z) (chunks : list (Chunk A)) : outcome (list (Chunk A)) :=
  match fuel with
  | O => OutOfFuel
  | S fuel' =>
      if start <? len text then
        let end_ := start + chunk_size in
        let chunk := mkChunk (length chunks) (slice text start end_)
                             start (Z.min end_ (len text)) in
        split_trace fuel' text chunk_size overlap (end_ - overlap) (chunks ++ [chunk])
      else Returns chunks
  end.

Definition split {A} (fuel : nat) (text : list A) (chunk_size overlap : Z)
    : outcome (list (Chunk A)) :=
  split_trace fuel text chunk_size overlap 0 [].

Definition outcome_map {A B} (f : A → B) (o : outcome A) : outcome B :=
  match o with
  | Returns a => Returns (f a)
  | Raises e => Raises e
  | OutOfFuel => OutOfFuel
  end.

(** *** Closed form of the chunk sequence

    With a positive stride [step = chunk_size - overlap] the loop emits the
    windows starting at [start], [start + step], ... below [len text]. *)
Definition window {A} (text : list A) (cs step : Z) (i0 : nat) (start : Z)
    (k : nat) : Chunk A :=
  let s := start + Z.of_nat k * step in
  mkChunk (i0 + k) (slice text s (s + cs)) s (Z.min (s + cs) (len text)).

Definition window_count (n start step : Z) : nat :=
  Z.to_nat ((n - start + step - 1) / step).

(** Last and first [n] characters of a fragment. *)
Definition trailing {A} (n : Z) (l : list A) : list A :=
  drop (length l - Z.to_nat n) l.

Definition leading {A} (n : Z) (l : list A) : list A :=
  take (Z.to_nat n) l.

(** The overlap property as the specification words it: every pair of
    consecutive chunks but the last one shares [overlap] characters. *)
Definition overlap_property {A} (text : list A) (chunk_size overlap : Z) : Prop :=
  ∀ chunks,
    split_text_into_chunks (S (length text)) text chunk_size overlap = Returns chunks →
    ∀ i c c', (i + 2 < length chunks)%nat →
      chunks !! i = Some c → chunks !! S i = Some c' →
      trailing overlap c = leading overlap c'.

(** Failing fast, as the specification states it: some budget makes the
    chunker raise [ConfigurationError]. *)
Definition fails_fast {A} (text : list A) (chunk_size overlap : Z) : Prop :=
  ∃ fuel, split_text_into_chunks fuel text chunk_size overlap
          = Raises ConfigurationError.

(** *** [merge_news_results] *)

Section merge.
Variable lower : str → str.

(** The [for item in items] loop of [deduplicate], on the state
    [(seen, unique)]. *)
Fixpoint deduplicate_loop (items : list str) (seen : gset str) (unique : list str)
    : list str :=
  match items with
  | [] => unique
  | item :: items' =>
      let item_normalized := lower (strip item) in
      if truthy item_normalized && negb (bool_decide (item_normalized ∈ seen)) then
        deduplicate_loop items' ({[item_normalized]} ∪ seen) (unique ++ [strip item])
      else deduplicate_loop items' seen unique
  end.

Definition deduplicate (items : list str) : list str :=
  deduplicate_loop items ∅ [].

(** The [for result in results] loop: three lists extended in step. *)
Definition extend_results (results : list News) : list str * list str * list str :=
  foldl (λ '(all_companies, all_persons, all_events) result,
           (all_companies ++ companies result,
            all_persons ++ persons result,
            all_events ++ events result))
        ([], [], []) results.

Definition merge_news_results (results : list News) : News :=
  let '(all_companies, all_persons, all_events) := extend_results results in
  mkNews (deduplicate all_companies)
         (deduplicate all_persons)
         (deduplicate all_events).

(** The union merge in the specification's words: flatten each category in
    chunk order; an entry is kept when its normalized key (trimmed, case
    folded) is not empty and no earlier entry has that key; what is kept is
    the entry in its original case, trimmed. *)
Definition normalized_key (s : str) : str := lower (strip s).

Fixpoint first_occurrences (earlier items : list str) : list str :=
  match items with
  | [] => []
  | item :: items' =>
      (if truthy (normalized_key item)
          && negb (bool_decide (normalized_key item ∈ normalized_key <$> earlier))
       then [strip item] else [])
      ++ first_occurrences (earlier ++ [item]) items'
  end.

Definition mergeUnion_spec (results : list News) : News :=
  mkNews (first_occurrences [] (concat (companies <$> results)))
         (first_occurrences [] (concat (persons <$> results)))
         (first_occurrences [] (concat (events <$> results))).

(** A clean output list: no entry is empty or starts or ends with
    whitespace, and no two entries share their normalized key. *)
Definition clean_entries (l : list str) : Prop :=
  (∀ s, s ∈ l →
     s ≠ [] ∧
     (∀ c, head s = Some c → isspace c = false) ∧
     (∀ c, last s = Some c → isspace c = false)) ∧
  NoDup (normalized_key <$> l).

(** The merged result contains the data of [news]: every entry with a
    non-empty key is met, by its key, in the same category. *)
Definition covered (l l' : list str) : Prop :=
  ∀ item, item ∈ l → normalized_key item ≠ [] →
    normalized_key item ∈ normalized_key <$> l'.

Definition contains_data (merged news : News) : Prop :=
  covered (companies news) (companies merged) ∧
  covered (persons news) (persons merged) ∧
  covered (events news) (events merged).

End merge.

(** *** [extract_from_chunk] and the loop of [run_news_extraction]

    The model call and the pydantic parser are collaborators:
    [chain_invoke chunk_num chunk] is [chain.invoke({"content": chunk})] for
    fragment number [chunk_num], [parser_parse] is [parser.parse]. *)
Section extraction.
Variable lower : str → str.
Context {response : Type}.
Variable chain_invoke : nat → str → result response.
Variable parser_parse : response → result News.

(** [chain.invoke] is outside the [try]: its exception leaves the function;
    a parse error is replaced by the empty [News]. *)
Definition extract_from_chunk (chunk : str) (chunk_num : nat) : result News :=
  response ←ᵣ chain_invoke chunk_num chunk;
  match parser_parse response with
  | Ok news => Ok news
  | Err parse_error => Ok (mkNews [] [] [])
  end.

(** [for i, chunk in enumerate(chunks, 1)]: a fragment whose extraction
    raises is reported and skipped ([continue]). *)
Fixpoint extraction_loop (i : nat) (chunks : list str) (results : list News)
    : list News :=
  match chunks with
  | [] => results
  | chunk :: chunks' =>
      match extract_from_chunk chunk i with
      | Ok news => extraction_loop (S i) chunks' (results ++ [news])
      | Err e => extraction_loop (S i) chunks' results
      end
  end.

(** [run_news_extraction], from the loaded [content] on. *)
Definition run_news_extraction (fuel : nat) (content : str) : outcome News :=
  outcome_map
    (λ chunks, merge_news_results lower (extraction_loop 1 chunks []))
    (split_text_into_chunks fuel content CHUNK_SIZE CHUNK_OVERLAP).

End extraction.

End Chunked.

(** ** [src/test/news_extraction_playwright_test.py] *)

Module ConsolidatedNews.
Record t := mk {
  summary : str;
  companies : list str;
  persons : list str;
  events : list str;
}.
End ConsolidatedNews.

(** The [ConsolidatedResult] of the data model: the summary is optional. *)
Module ConsolidatedResult.
Record t := mk {
  summary : option str;
  companies : list str;
  persons : list str;
  events : list str;
}.
End ConsolidatedResult.

Module Extractor.

(** [context_data]: the three raw lists handed to the consolidation prompt. *)
Record context_data := mkContext {
  raw_companies : list str;
  raw_persons : list str;
  raw_events : list str;
}.

(** State of one [process_chunk] coroutine under [asyncio.gather]: blocked on
    the semaphore, holding a permit with its model call in flight, or done. *)
Inductive task :=
  | Waiting
  | Running
  | Finished (parsed_data : News).

Definition task_result (t : task) : option News :=
  match t with
  | Finished r => Some r
  | _ => None
  end.

Definition is_running (t : task) : bool :=
  match t with Running => true | _ => false end.

(** The event loop state: the task list, in the order the coroutines were
    given to [gather], and the progress bar's completed count. *)
Record pool := mkPool {
  tasks : list task;
  completed : nat;
}.

Definition is_finished (t : task) : bool :=
  match t with Finished _ => true | _ => false end.

(** Permits of the semaphore in use, and coroutines that have returned. *)
Definition in_flight (p : pool) : nat :=
  length (filter (λ t, is_running t = true) (tasks p)).

Definition finished_count (p : pool) : nat :=
  length (filter (λ t, is_finished t = true) (tasks p)).

(** What [run] leaves behind: nothing when no content was loaded, else the
    consolidated news it displayed and saved. *)
Inductive run_result :=
  | NoContent
  | Saved (final_news : ConsolidatedNews.t).

Section NewsExtractor.
(** [Config] and the collaborators: [split_text] is the recursive character
    splitter, [chunk_ainvoke t chunk] the model call on a fragment when it
    completes at logical time [t] (the number of calls completed before),
    [final_ainvoke] the consolidation call. *)
Context {response : Type}.
Variable MAX_CONCURRENCY : nat.
Variable split_text : str → list str.
Variable chunk_ainvoke : nat → str → result response.
Variable chunk_parser_parse : response → result News.
Variable final_ainvoke : context_data → result response.
Variable final_parser_parse : response → result ConsolidatedNews.t.

(** Body of [process_chunk] once the semaphore is held; [t] is the time at
    which the model call completes. [extraction] is the body of the [try]. *)
Definition extraction (t : nat) (chunk : str) : result News :=
  response ←ᵣ chunk_ainvoke t chunk;
  chunk_parser_parse response.

Definition process_chunk (t : nat) (chunk : str) (chunk_id : nat) : News :=
  match extraction t chunk with
  | Ok parsed_data => parsed_data
  | Err e => News_default
  end.

(** [asyncio.gather] of the tasks over the semaphore: a waiting task takes
    a free permit (any of them: the FIFO wake-up of [asyncio.Semaphore] is one
    of these choices); a running task completes, advances the progress count
    and stores its result in its own slot. *)
Inductive pool_step (chunks : list str) : pool → pool → Prop :=
  | step_acquire p i :
      tasks p !! i = Some Waiting →
      (in_flight p < MAX_CONCURRENCY)%nat →
      pool_step chunks p (mkPool (<[i := Running]> (tasks p)) (completed p))
  | step_complete p i chunk :
      tasks p !! i = Some Running →
      chunks !! i = Some chunk →
      pool_step chunks p
        (mkPool (<[i := Finished (process_chunk (completed p) chunk i)]> (tasks p))
                (S (completed p))).

Definition pool_init (chunks : list str) : pool :=
  mkPool (replicate (length chunks) Waiting) 0.

(** [raw_results = await asyncio.gather(...)]: available once every task
    is finished, in task order. *)
Definition gathered (p : pool) : option (list News) :=
  mapM task_result (tasks p).

Definition pool_run (chunks : list str) (raw_results : list News) : Prop :=
  ∃ p, rtc (pool_step chunks) (pool_init chunks) p ∧ gathered p = Some raw_results.

(** The schedule in which the model calls complete one at a time, in the
    given [order] of task indices. *)
Definition acquire (i : nat) (p : pool) : pool :=
  mkPool (<[i := Running]> (tasks p)) (completed p).

Definition complete (chunks : list str) (i : nat) (p : pool) : pool :=
  match chunks !! i with
  | Some chunk =>
      mkPool (<[i := Finished (process_chunk (completed p) chunk i)]> (tasks p))
             (S (completed p))
  | None => p
  end.

Definition schedule (chunks : list str) (order : list nat) : pool :=
  foldl (λ p i, complete chunks i (acquire i p)) (pool_init chunks) order.

(** Invariant of the event loop: one slot per chunk, a finished slot holds
    the result of its own chunk, the progress count is the number of
    finished tasks, and the semaphore bounds the calls in flight. *)
Definition pool_inv (chunks : list str) (p : pool) : Prop :=
  length (tasks p) = length chunks ∧
  completed p = finished_count p ∧
  (in_flight p ≤ MAX_CONCURRENCY)%nat ∧
  ∀ i r, tasks p !! i = Some (Finished r) →
    ∃ chunk t, chunks !! i = Some chunk ∧ (t < completed p)%nat ∧
               r = process_chunk t chunk i.

Definition make_context (raw_results : list News) : context_data :=
  let all_companies : gset str := list_to_set (concat (companies <$> raw_results)) in
  let all_persons : gset str := list_to_set (concat (persons <$> raw_results)) in
  let all_events : gset str := list_to_set (concat (events <$> raw_results)) in
  mkContext (elements all_companies) (elements all_persons) (elements all_events).

Definition consolidate_results (raw_results : list News) : result ConsolidatedNews.t :=
  let context_data := make_context raw_results in
  response ←ᵣ final_ainvoke context_data;
  final_parser_parse response.

(** [run], from the loaded [content] on: the consolidation phase, then the
    whole method. *)
Definition run_after_gather (raw_results : list News) : result run_result :=
  final_news ←ᵣ consolidate_results raw_results;
  Ok (Saved final_news).

Inductive run (content : str) : result run_result → Prop :=
  | run_no_content :
      content = [] → run content (Ok NoContent)
  | run_pipeline raw_results :
      content ≠ [] →
      pool_run (split_text content) raw_results →
      run content (run_after_gather raw_results).

(** The pipeline reaches [Done] when [run] comes back with a result. *)
Definition reaches_Done (o : result run_result) : Prop :=
  ∃ final_news, o = Ok (Saved final_news).

(** The consolidation primitive fails with [e]: the call raises, or its
    output does not parse. *)
Definition consolidation_raises (raw_results : list News) (e : exn) : Prop :=
  final_ainvoke (make_context raw_results) = Err e ∨
  ∃ response, final_ainvoke (make_context raw_results) = Ok response ∧
              final_parser_parse response = Err e.

(** Every entity of [news] is in the raw lists of the consolidation call. *)
Definition reaches_context (news : News) (ctx : context_data) : Prop :=
  (∀ item, item ∈ companies news → item ∈ raw_companies ctx) ∧
  (∀ item, item ∈ persons news → item ∈ raw_persons ctx) ∧
  (∀ item, item ∈ events news → item ∈ raw_events ctx).

(** [mergeConsolidate] of the specification, whose result has an optional
    summary: [consolidate_results] seen as a [ConsolidatedResult]; and the
    result the specification expects from the fallback, for a union merge
    [mergeUnion]. *)
Definition with_summary (n : ConsolidatedNews.t) : ConsolidatedResult.t :=
  ConsolidatedResult.mk (Some (ConsolidatedNews.summary n))
    (ConsolidatedNews.companies n) (ConsolidatedNews.persons n)
    (ConsolidatedNews.events n).

Definition without_summary (n : News) : ConsolidatedResult.t :=
  ConsolidatedResult.mk None (companies n) (persons n) (events n).

Definition mergeConsolidate (raw_results : list News) : result ConsolidatedResult.t :=
  final_news ←ᵣ consolidate_results raw_results;
  Ok (with_summary final_news).

(** The consolidation fallback as the specification states it: a failing
    primitive leaves the union merge, without summary, and [Done] is reached. *)
Definition consolidation_fallback (mergeUnion : list News → News)
    (content : str) (raw_results : list News) : Prop :=
  content ≠ [] →
  pool_run (split_text content) raw_results →
  (∃ e, consolidation_raises raw_results e) →
  mergeConsolidate raw_results = Ok (without_summary (mergeUnion raw_results)) ∧
  reaches_Done (run_after_gather raw_results).

(** Failure isolation as the specification states it, for the entries of the
    pool: one per chunk, and the entry of a chunk whose extraction raises is
    empty and carries [failed=true]. *)
Definition failure_isolation (chunks : list str) : Prop :=
  ∀ raw_results, pool_run chunks raw_results →
    length raw_results = length chunks ∧
    ∀ i chunk, chunks !! i = Some chunk →
      (∀ t, ∃ e, extraction t chunk = Err e) →
      ∃ r, raw_results !! i = Some r ∧
           companies r = [] ∧ persons r = [] ∧ events r = [] ∧
           getattr r "failed" = Some (PyBool true).

End NewsExtractor.

End Extractor.

(** ** Stand-ins for the collaborators, used to run the models *)

Module Doubles.
Import Extractor.

(** A model that answers with the fragment it was given, and a parser that
    reads the answer as one company. *)
Definition echo (t : nat) (chunk : str) : result str := Ok chunk.

Definition parse_company (response : str) : result News :=
  Ok (mkNews [response] [] []).

(** The same model, raising on the fragment ["b"]; and one that always
    raises. *)
Definition flaky (t : nat) (chunk : str) : result str :=
  if decide (chunk = of_ascii "b") then Err InvokeError else Ok chunk.

Definition always_raises (t : nat) (chunk : str) : result str :=
  Err InvokeError.

(** A model whose answer depends on when the call completes. *)
Definition stamp (t : nat) (chunk : str) : result str :=
  Ok (chunk ++ [N.of_nat t]).

(** A splitter that cuts after every character. *)
Definition split_chars (content : str) : list str := (λ c, [c]) <$> content.

(** A consolidation call that raises, and a final parser that rejects. *)
Definition final_raises (ctx : context_data) : result str := Err InvokeError.

Definition final_rejects (response : str) : result ConsolidatedNews.t :=
  Err OutputParserException.

End Doubles.

(** ** Putting the fragments back together

    What a reader of the fragments does to recover the text: keep the first
    fragment, and of every later one drop the [overlap] characters it shares
    with its predecessor. *)

Module Reassembly.

Definition reassemble {A} (overlap : Z) (chunks : list (list A)) : list A :=
  match chunks with
  | [] => []
  | chunk :: chunks' => chunk ++ concat (drop (Z.to_nat overlap) <$> chunks')
  end.

End Reassembly.

(** ** Relating the input and the output of the union merge *)

Module MergeRelations.
Import Chunked.

(** The output of a category holds exactly the non-empty normalized keys of
    its input. *)
Definition same_keys (lower : str → str) (input output : list str) : Prop :=
  ∀ k, k ∈ normalized_key lower <$> output ↔
       k ≠ [] ∧ k ∈ normalized_key lower <$> input.

(** The output of a category is a selection, in order, of the trimmed
    input entries. *)
Definition selection_of (input output : list str) : Prop :=
  output `sublist_of` strip <$> input.

End MergeRelations.

(** ** The results a loop with [continue] collects *)

Module Collected.

(** What [try: ... results.append(news) / except: continue] keeps of one
    extraction. *)
Definition kept {A} (r : result A) : option A :=
  match r with
  | Ok a => Some a
  | Err _ => None
  end.

End Collected.

(** ** [src/news_extraction_playwright.py] *)

Module Playwright.

(** The Python objects that reach [_coerce_list] and [parse_news_response]:
    what [json.loads] builds, a number or a boolean being known by its
    [str()]. The keys of a dictionary are strings, as in a JSON object: a
    dictionary with another kind of key, which only a caller passing a [dict]
    of its own can build and on which [key.lower()] fails, is not one of
    these objects. *)
#[local] Set Warnings "-register-all".

Inductive pyobj :=
  | ONone
  | OStr (s : str)
  | OList (items : list pyobj)
  | ODict (items : list (str * pyobj))
  | OScalar (text : str).

Inductive pyerror :=
  | ValueError
  | TypeError
  | AttributeError
  | ExternalError.

Inductive answer (A : Type) :=
  | Return (a : A)
  | Raise (e : pyerror).
Arguments Return {A} a.
Arguments Raise {A} e.

Definition answer_bind {A B} (r : answer A) (k : A → answer B) : answer B :=
  match r with
  | Return a => k a
  | Raise e => Raise e
  end.

Notation "x ←ₐ r ; k" := (answer_bind r (λ x, k))
  (at level 20, r at level 100, k at level 200, right associativity,
   format "x  ←ₐ  r ;  '/' k").

Inductive field := persons_field | companies_field | events_field.

(** [FIELD_ALIASES], in the order of the dictionary. *)
Definition aliases (f : field) : list str :=
  match f with
  | persons_field =>
      [of_ascii "persons"; of_ascii "personas"; of_ascii "people"; of_ascii "individuos"]
  | companies_field =>
      [of_ascii "companies"; of_ascii "empresas"; of_ascii "organizations";
       of_ascii "organizaciones"]
  | events_field =>
      [of_ascii "events"; of_ascii "eventos"; of_ascii "hechos"; of_ascii "acontecimientos"]
  end.

Definition FIELD_ALIASES : list (field * list str) :=
  [(persons_field, aliases persons_field);
   (companies_field, aliases companies_field);
   (events_field, aliases events_field)].

Definition get_field (f : field) (news : News) : list str :=
  match f with
  | persons_field => persons news
  | companies_field => companies news
  | events_field => events news
  end.

(** [payload.get(key, default)] on the items of a dictionary. *)
Definition dict_get (key : str) (items : list (str * pyobj)) (default : pyobj) : pyobj :=
  match list_find (λ kv, fst kv = key) items with
  | Some (_, (_, value)) => value
  | None => default
  end.

Section parse.
(** [str.lower], [json.loads] ([None] when it raises [JSONDecodeError]) and
    [str()] of a list or a dictionary are taken as parameters. *)
Variable lower : str → str.
Variable json_loads : str → option pyobj.
Variable container_str : pyobj → str.

(** [str(item)] *)
Definition py_str (item : pyobj) : str :=
  match item with
  | ONone => of_ascii "None"
  | OStr s => s
  | OScalar text => text
  | OList _ | ODict _ => container_str item
  end.

Definition _coerce_list (value : pyobj) : list str :=
  match value with
  | ONone => []
  | OList items =>
      omap (λ item, if truthy (strip (py_str item))
                    then Some (strip (py_str item)) else None) items
  | OStr s =>
      let value := strip s in
      if truthy value then [value] else []
  | _ => [strip (py_str value)]
  end.

(** [for key in payload]: the keys of a dictionary, the items of a list, the
    characters of a string; nothing else can be iterated. *)
Definition iterate (payload : pyobj) : answer (list pyobj) :=
  match payload with
  | ODict items => Return (OStr ∘ fst <$> items)
  | OList items => Return items
  | OStr s => Return ((λ c, OStr [c]) <$> s)
  | _ => Raise TypeError
  end.

(** [{key.lower(): key for key in payload}]: only a string has [lower]; a
    later key replaces an earlier one with the same lowered form. *)
Fixpoint lowered (keys : list pyobj) (acc : gmap str str) : answer (gmap str str) :=
  match keys with
  | [] => Return acc
  | OStr key :: keys' => lowered keys' (<[lower key := key]> acc)
  | _ :: _ => Raise AttributeError
  end.

(** [next((lowered_keys[alias] for alias in aliases if alias in lowered_keys), None)] *)
Fixpoint select_key (lowered_keys : gmap str str) (aliases : list str) : option str :=
  match aliases with
  | [] => None
  | alias :: aliases' =>
      match lowered_keys !! alias with
      | Some key => Some key
      | None => select_key lowered_keys aliases'
      end
  end.

(** [payload.get(selected_key, []) if selected_key else []]: only a
    dictionary has [get]. *)
Definition selected_value (payload : pyobj) (selected_key : option str) : answer pyobj :=
  match selected_key with
  | Some key =>
      if truthy key then
        match payload with
        | ODict items => Return (dict_get key items (OList []))
        | _ => Raise AttributeError
        end
      else Return (OList [])
  | None => Return (OList [])
  end.

Definition is_str (item : pyobj) : bool :=
  match item with OStr _ => true | _ => false end.

(** The values [_coerce_list] treats as a list of entries. *)
Definition listlike (value : pyobj) : Prop :=
  match value with
  | ONone | OStr _ | OList _ => True
  | ODict _ | OScalar _ => False
  end.

Definition normalized_field (payload : pyobj) (lowered_keys : gmap str str) (f : field)
    : answer (list str) :=
  value ←ₐ selected_value payload (select_key lowered_keys (aliases f));
  Return (_coerce_list value).

Definition load_payload (content : pyobj) : answer pyobj :=
  match content with
  | OStr s =>
      match json_loads s with
      | Some payload => Return payload
      | None => Raise ValueError
      end
  | ODict _ => Return content
  | _ => Raise ValueError
  end.

Definition parse_news_response (content : pyobj) : answer News :=
  payload ←ₐ load_payload content;
  keys ←ₐ iterate payload;
  lowered_keys ←ₐ lowered keys ∅;
  persons ←ₐ normalized_field payload lowered_keys persons_field;
  companies ←ₐ normalized_field payload lowered_keys companies_field;
  events ←ₐ normalized_field payload lowered_keys events_field;
  Return (mkNews companies persons events).

End parse.

(** *** The end of [fetch_url_content]: cleaning and truncating the text *)

(** [text.split(sep)] for a one-character separator. *)
Fixpoint split_on (sep : codepoint) (text : str) : list str :=
  match text with
  | [] => [[]]
  | c :: text' =>
      if (c =? sep)%N then [] :: split_on sep text'
      else match split_on sep text' with
           | line :: lines => (c :: line) :: lines
           | [] => [[c]]
           end
  end.

(** [sep.join(lines)] *)
Fixpoint join (sep : str) (lines : list str) : str :=
  match lines with
  | [] => []
  | [line] => line
  | line :: lines' => line ++ sep ++ join sep lines'
  end.

Definition newline : codepoint := 10%N.

(** [[line.strip() for line in text.split('\n') if line.strip()]], joined
    with newlines. *)
Definition clean_lines (text : str) : str :=
  join [newline]
       (omap (λ line, if truthy (strip line) then Some (strip line) else None)
             (split_on newline text)).

(** [if len(text) > max_chars: text = text[:max_chars] + suffix] *)
Definition truncate (max_chars : Z) (suffix : str) (text : str) : str :=
  if len text >? max_chars then slice text 0 max_chars ++ suffix else text.

Definition max_chars : Z := 50000.

(** [fetch_url_content] from the text of the page on. *)
Definition clean_text (text : str) : str :=
  truncate max_chars ([newline; newline] ++ of_ascii "[Contenido truncado...]")
           (clean_lines text).

(** *** The tool loop of [run_news_extraction] *)

Inductive message :=
  | System (content : str)
  | User (content : str)
  | Tool (name : str) (content : str).

(** [tool_call.function]: a name and its arguments. *)
Record tool_call := mkToolCall {
  function_name : str;
  arguments : pyobj;
}.

(** [response.message]: its content and its [tool_calls], which may be
    absent. *)
Record model_response := mkResponse {
  content : pyobj;
  tool_calls : option (list tool_call);
}.

Definition max_iterations : Z := 5.

Section tools.
(** Collaborators: [call_model] is the chat call, [fetch] the body of
    [fetch_url_content] on the object passed as [url], [scalar_truthy] tells
    whether a number or a boolean, known by its [str()], is truthy; a
    collaborator that raises surfaces as [ExternalError]. *)
Variable lower : str → str.
Variable json_loads : str → option pyobj.
Variable container_str : pyobj → str.
Variable scalar_truthy : str → bool.
Variable call_model : list message → answer model_response.
Variable fetch : pyobj → answer str.
Variable system_prompt user_prompt : str.

(** [bool(value)] *)
Definition obj_truthy (value : pyobj) : bool :=
  match value with
  | ONone => false
  | OStr s => truthy s
  | OList items => match items with [] => false | _ => true end
  | ODict items => match items with [] => false | _ => true end
  | OScalar text => scalar_truthy text
  end.

(** The executor called with the payload as its keywords, for the only
    executor, [fetch_url_content(url)]: the keywords must be exactly [url]. *)
Definition call_fetch (items : list (str * pyobj)) : answer str :=
  match items with
  | [(key, value)] =>
      if decide (key = of_ascii "url") then fetch value else Raise TypeError
  | _ => Raise TypeError
  end.

(** The body of [for tool_call in response.message.tool_calls]. *)
Definition execute_tool_call (call : tool_call) (messages : list message)
    : answer (list message) :=
  let arguments :=
    if obj_truthy (arguments call) then arguments call else OStr (of_ascii "{}") in
  payload ←ₐ match arguments with
             | OStr s =>
                 match json_loads s with
                 | Some payload => Return payload
                 | None => Raise ValueError
                 end
             | _ => Return arguments
             end;
  if decide (function_name call = of_ascii "fetch_url_content") then
    match payload with
    | ODict items =>
        tool_result ←ₐ call_fetch items;
        Return (messages ++ [Tool (function_name call) tool_result])
    | _ => Raise AttributeError
    end
  else Raise ValueError.

Fixpoint execute_tool_calls (calls : list tool_call) (messages : list message)
    : answer (list message) :=
  match calls with
  | [] => Return messages
  | call :: calls' =>
      messages' ←ₐ execute_tool_call call messages;
      execute_tool_calls calls' messages'
  end.

(** [getattr(response.message, "tool_calls", None)], as a condition. *)
Definition pending_calls (response : model_response) : list tool_call :=
  default [] (tool_calls response).

(** The [while] loop, one unit of fuel per evaluation of its test; [None]
    when the fuel runs out. *)
Fixpoint tool_loop (fuel : nat) (messages : list message) (response : model_response)
    (iteration : Z) : option (answer News) :=
  match fuel with
  | O => None
  | S fuel' =>
      match pending_calls response with
      | _ :: _ =>
          if iteration <? max_iterations then
            let iteration := iteration + 1 in
            match execute_tool_calls (pending_calls response) messages with
            | Raise e => Some (Raise e)
            | Return messages =>
                match call_model messages with
                | Raise e => Some (Raise e)
                | Return response => tool_loop fuel' messages response iteration
                end
            end
          else Some (parse_news_response lower json_loads container_str (content response))
      | [] => Some (parse_news_response lower json_loads container_str (content response))
      end
  end.

Definition run_news_extraction (fuel : nat) (url : str) : option (answer News) :=
  let messages := [System system_prompt; User (user_prompt ++ url)] in
  match call_model messages with
  | Raise e => Some (Raise e)
  | Return response => tool_loop fuel messages response 0
  end.

End tools.

End Playwright.

(** ** [src/test/langchain_news.py] *)

Module Langchain.
Import Playwright.

(** How [run_news_extraction] ends: with the parsed news, with the
    [ValueError] it raises when the answer does not parse, or with the
    exception of the model call. *)
Inductive ending :=
  | Extracted (news : News)
  | RaisedValueError
  | Propagated (e : exn).

Section run.
Context {response : Type}.
Variable chain_invoke : str → result response.
Variable parser_parse : response → result News.

(** The content the model is given: at most [max_chars] characters of the
    page, and a notice when something was cut. *)
Definition prompt_content (content : str) : str :=
  truncate 50000 (newline :: of_ascii "[Contenido truncado...]") content.

(** [run_news_extraction], from the loaded [content] on. *)
Definition run_news_extraction (content : str) : ending :=
  let content := prompt_content content in
  match chain_invoke content with
  | Err e => Propagated e
  | Ok response =>
      match parser_parse response with
      | Ok news => Extracted news
      | Err parse_error => RaisedValueError
      end
  end.

End run.

End Langchain.

(** Stand-ins for the model, the page fetcher and the JSON reader. *)

Module ToolDoubles.
Import Playwright.

(** A fetcher that returns the same page for every address. *)
Definition page_fetch (url : pyobj) : answer str := Return (of_ascii "page").

(** A model that asks for the page at every turn. *)
Definition insistent_model (messages : list message) : answer model_response :=
  Return (mkResponse
            (ODict [(of_ascii "persons", OList [OStr (of_ascii "Ana")])])
            (Some [mkToolCall (of_ascii "fetch_url_content")
                     (ODict [(of_ascii "url", OStr (of_ascii "http://x"))])])).

(** A fetcher whose page names the address it was given. *)
Definition url_fetch (url : pyobj) : answer str :=
  match url with
  | OStr address => Return (of_ascii "page of " ++ address)
  | _ => Raise TypeError
  end.

(** A JSON reader that knows one text, the object with the key [Personas]
    and the list with the name [ Ana ] as its value. *)
Definition quoted (s : str) : str := [34%N] ++ s ++ [34%N].

Definition persons_json : str :=
  of_ascii "{" ++ quoted (of_ascii "Personas") ++ of_ascii ": ["
    ++ quoted (of_ascii " Ana ") ++ of_ascii "]}".

Definition reads_persons_json (s : str) : option pyobj :=
  if decide (s = persons_json)
  then Some (ODict [(of_ascii "Personas", OList [OStr (of_ascii " Ana ")])])
  else None.

End ToolDoubles.

Lemma elem_of_concat {A} (x : A) (ls : list (list A)) :
  x ∈ concat ls ↔ ∃ l, x ∈ l ∧ l ∈ ls.
Proof.
  induction ls as [|l ls IH]; simpl.
  - rewrite elem_of_nil. split; [done|]. by intros (l & _ & ?%elem_of_nil).
  - rewrite elem_of_app, IH. split.
    + intros [Hx|(l' & Hx & Hl')]; [exists l|exists l']; rewrite elem_of_cons; auto.
    + intros (l' & Hx & [->|Hl']%elem_of_cons); [by left|right; by exists l'].
Qed.

Module ChunkedFacts.
Import Chunked.

Example deduplicate_ecopetrol :
  deduplicate lower_ascii_only [of_ascii "Ecopetrol"; of_ascii " ecopetrol "]
  = [of_ascii "Ecopetrol"].
Proof. vm_compute. reflexivity. Qed.

Lemma split_trace_texts {A} fuel (text : list A) cs ov start chunks :
  outcome_map (fmap chunk_text) (split_trace fuel text cs ov start chunks)
  = split_loop fuel text cs ov start (chunk_text <$> chunks).
Proof.
  revert start chunks. induction fuel as [|fuel IH]; intros start chunks; simpl; [done|].
  destruct (start <? len text); [|done].
  rewrite IH. by rewrite fmap_app.
Qed.

(** Slices with a non-negative, ordered range are a [take] of a [drop]. *)
Lemma slice_take_drop {A} (text : list A) a b :
  0 ≤ a → a ≤ b →
  slice text a b = take (Z.to_nat (b - a)) (drop (Z.to_nat a) text).
Proof.
  intros Ha Hab. unfold slice, adjust_index, len.
  destruct (Z.ltb_spec a 0) as [?|_]; [lia|].
  destruct (Z.ltb_spec b 0) as [?|_]; [lia|].
  destruct (Z.le_gt_cases a (Z.of_nat (length text))) as [Hle|Hgt].
  - rewrite (Z.min_l a) by lia.
    destruct (Z.le_gt_cases b (Z.of_nat (length text))) as [Hb|Hb].
    + by rewrite Z.min_l by lia.
    + rewrite Z.min_r by lia.
      rewrite !take_ge; [done| |]; rewrite length_drop; lia.
  - rewrite !drop_ge by lia. by rewrite !take_nil.
Qed.

Lemma length_slice {A} (text : list A) a b :
  0 ≤ a → a ≤ b →
  len (slice text a b) = Z.max 0 (Z.min b (len text) - a).
Proof.
  intros Ha Hab. rewrite slice_take_drop by done.
  unfold len. rewrite length_take, length_drop. lia.
Qed.

Lemma split_loop_fuel_mono {A} fuel fuel' (text : list A) cs ov start chunks r :
  (fuel ≤ fuel')%nat →
  split_loop fuel text cs ov start chunks = Returns r →
  split_loop fuel' text cs ov start chunks = Returns r.
Proof.
  revert fuel' start chunks.
  induction fuel as [|fuel IH]; intros fuel' start chunks Hle; simpl; [done|].
  destruct fuel' as [|fuel']; [lia|]. simpl.
  destruct (start <? len text); [|done]. apply IH. lia.
Qed.

(** The loop never raises: its only exits are the loop test and the budget. *)
Lemma split_loop_never_raises {A} fuel (text : list A) cs ov start chunks e :
  split_loop fuel text cs ov start chunks ≠ Raises e.
Proof.
  revert start chunks. induction fuel as [|fuel IH]; intros start chunks; simpl; [done|].
  destruct (start <? len text); [apply IH|done].
Qed.

(** Without forward progress ([overlap >= chunk_size]) the loop test stays
    true for ever once it was true. *)
Lemma split_loop_no_progress {A} fuel (text : list A) cs ov start chunks :
  cs ≤ ov → start < len text →
  split_loop fuel text cs ov start chunks = OutOfFuel.
Proof.
  intros Hov. revert start chunks.
  induction fuel as [|fuel IH]; intros start chunks Hlt; simpl; [done|].
  destruct (Z.ltb_spec start (len text)) as [_|?]; [|lia].
  apply IH. lia.
Qed.

Lemma split_invalid_config_diverges {A} fuel (text : list A) cs ov :
  cs ≤ ov → text ≠ [] →
  split_text_into_chunks fuel text cs ov = OutOfFuel.
Proof.
  intros Hov Hne. apply split_loop_no_progress; [done|].
  unfold len. destruct text; [done|]. simpl. lia.
Qed.

Lemma window_count_done n start step :
  0 < step → n ≤ start → window_count n start step = 0%nat.
Proof.
  intros Hstep Hle. unfold window_count.
  assert ((n - start + step - 1) / step ≤ 0); [|lia].
  apply Z.lt_succ_r, Z.div_lt_upper_bound; lia.
Qed.

Lemma window_count_step n start step :
  0 < step → start < n →
  window_count n start step = S (window_count n (start + step) step).
Proof.
  intros Hstep Hlt. unfold window_count.
  replace (n - start + step - 1) with ((n - (start + step) + step - 1) + 1 * step) by lia.
  rewrite Z.div_add by lia.
  rewrite Z2Nat.inj_add; [lia| |lia].
  apply Z.div_pos; lia.
Qed.

Lemma window_count_spec n start step k :
  0 < step → (k < window_count n start step)%nat ↔ start + Z.of_nat k * step < n.
Proof.
  intros Hstep. revert start. induction k as [|k IH]; intros start.
  - destruct (Z.lt_ge_cases start n) as [Hlt|Hge].
    + rewrite window_count_step by done. lia.
    + rewrite window_count_done by done. lia.
  - destruct (Z.lt_ge_cases start n) as [Hlt|Hge].
    + rewrite window_count_step by done.
      rewrite <- Nat.succ_lt_mono, IH. lia.
    + rewrite window_count_done by done. nia.
Qed.

Lemma split_trace_closed {A} fuel (text : list A) cs ov start chunks :
  ov < cs →
  (window_count (len text) start (cs - ov) < fuel)%nat →
  split_trace fuel text cs ov start chunks
  = Returns (chunks ++ (window text cs (cs - ov) (length chunks) start
                          <$> seq 0 (window_count (len text) start (cs - ov)))).
Proof.
  intros Hov. revert start chunks.
  induction fuel as [|fuel IH]; intros start chunks Hfuel; [lia|]. simpl.
  destruct (Z.ltb_spec start (len text)) as [Hlt|Hge].
  - rewrite window_count_step in Hfuel |- * by lia.
    replace (start + cs - ov) with (start + (cs - ov)) by lia.
    rewrite IH by lia. f_equal. rewrite <- app_assoc. f_equal. simpl. f_equal.
    + unfold window. simpl. rewrite Z.add_0_r, Nat.add_0_r. done.
    + rewrite <- fmap_S_seq, <- list_fmap_compose. apply list_fmap_ext.
      intros _ k _. unfold window, compose. simpl.
      rewrite length_app. simpl. f_equal; [lia|f_equal; lia|lia|lia].
  - rewrite window_count_done by lia. simpl. by rewrite app_nil_r.
Qed.

Lemma split_closed {A} fuel (text : list A) cs ov :
  ov < cs →
  (window_count (len text) 0 (cs - ov) < fuel)%nat →
  split fuel text cs ov
  = Returns (window text cs (cs - ov) 0 0 <$> seq 0 (window_count (len text) 0 (cs - ov))).
Proof. intros. unfold split. by rewrite split_trace_closed. Qed.

(** One unit of fuel per character plus one is always enough. *)
Lemma window_count_le_length {A} (text : list A) step :
  0 < step → (window_count (len text) 0 step ≤ length text)%nat.
Proof.
  intros Hstep. apply Nat.nlt_ge. intros Hlt.
  apply window_count_spec in Hlt; [|done]. unfold len in Hlt. nia.
Qed.

Lemma split_texts_closed {A} fuel (text : list A) cs ov :
  ov < cs →
  (window_count (len text) 0 (cs - ov) < fuel)%nat →
  split_text_into_chunks fuel text cs ov
  = Returns (chunk_text <$> (window text cs (cs - ov) 0 0
                               <$> seq 0 (window_count (len text) 0 (cs - ov)))).
Proof.
  intros Hov Hfuel. unfold split_text_into_chunks.
  change (@nil (list A)) with (chunk_text <$> @nil (Chunk A)).
  rewrite <- split_trace_texts, split_trace_closed by done. done.
Qed.

Lemma elem_of_windows {A} (text : list A) cs step n c :
  c ∈ window text cs step 0 0 <$> seq 0 n ↔
  ∃ k, (k < n)%nat ∧ c = window text cs step 0 0 k.
Proof.
  rewrite list_elem_of_fmap. setoid_rewrite elem_of_seq.
  split; intros (k & ? & ?); exists k; split; (done || lia).
Qed.

Lemma lookup_windows {A} (text : list A) cs step n i c :
  (chunk_text <$> (window text cs step 0 0 <$> seq 0 n)) !! i = Some c ↔
  (i < n)%nat ∧ c = slice text (Z.of_nat i * step) (Z.of_nat i * step + cs).
Proof.
  rewrite !list_lookup_fmap. split.
  - intros H. destruct (seq 0 n !! i) as [k|] eqn:Hk; [|done].
    apply lookup_seq in Hk as [-> ?]. simpl in H. split; [done|].
    injection H as <-. done.
  - intros [Hi ->]. by rewrite lookup_seq_lt.
Qed.

Lemma slice_clip {A} (text : list A) a b :
  0 ≤ a → a ≤ b → a ≤ len text →
  slice text a b = slice text a (Z.min b (len text)).
Proof.
  intros Ha Hab Hlen. rewrite !slice_take_drop by lia.
  destruct (Z.le_gt_cases b (len text)); [by rewrite Z.min_l by lia|].
  rewrite Z.min_r by lia.
  rewrite !take_ge; [done| |]; rewrite length_drop; unfold len in *; lia.
Qed.

(** C5 (coverage): under a valid configuration [split] returns, its chunk
    texts are the fragments [split_text_into_chunks] returns, every chunk is
    the non-empty slice [[start_offset, end_offset)] of the text, and a
    position lies in [[0, len text)] exactly when some chunk range contains
    it; the empty text gives the empty sequence, not an error. *)
Theorem split_coverage {A} (text : list A) (chunk_size overlap : Z) :
  0 < chunk_size → 0 ≤ overlap < chunk_size →
  ∃ chunks,
    split (S (length text)) text chunk_size overlap = Returns chunks ∧
    split_text_into_chunks (S (length text)) text chunk_size overlap
      = Returns (chunk_text <$> chunks) ∧
    (∀ c, c ∈ chunks →
       0 ≤ start_offset c < end_offset c ∧ end_offset c ≤ len text ∧
       chunk_text c = slice text (start_offset c) (end_offset c)) ∧
    (∀ p, 0 ≤ p < len text ↔
          ∃ c, c ∈ chunks ∧ start_offset c ≤ p < end_offset c) ∧
    split (S (length text)) (@nil A) chunk_size overlap = Returns [] ∧
    split_text_into_chunks (S (length text)) (@nil A) chunk_size overlap = Returns [].
Proof.
  intros Hcs Hov. set (step := chunk_size - overlap).
  assert (0 < step) as Hstep by (unfold step; lia).
  pose proof (window_count_le_length text step Hstep) as Hfuel.
  eexists. split; [apply split_closed; [lia|fold step; lia]|].
  split; [apply split_texts_closed; [lia|fold step; lia]|].
  fold step. split; [|split].
  - intros c (k & Hk & ->)%elem_of_windows.
    apply window_count_spec in Hk; [|done]. unfold window. simpl.
    rewrite Z.add_0_l in *. repeat split; try lia.
    apply slice_clip; lia.
  - intros p. split.
    + intros [Hp0 Hp]. exists (window text chunk_size step 0 0 (Z.to_nat (p / step))).
      pose proof (Z.div_pos p step Hp0 Hstep) as Hq.
      pose proof (Z.mul_div_le p step Hstep) as Hlo.
      pose proof (Z.mul_succ_div_gt p step Hstep) as Hhi.
      split.
      * apply elem_of_windows. eexists; split; [|done].
        apply window_count_spec; [done|]. rewrite Z2Nat.id by done. lia.
      * unfold window. simpl. rewrite Z2Nat.id by done. unfold step in *. lia.
    + intros (c & (k & Hk & ->)%elem_of_windows & Hp).
      apply window_count_spec in Hk; [|done].
      unfold window in Hp. simpl in Hp. lia.
  - done.
Qed.

(** C9, as amended: under a valid configuration, whenever chunk [i] has the
    full length [chunk_size] -- which is the case for every pair but the last
    when [2 * overlap <= chunk_size] -- its trailing [overlap] characters are
    the leading [overlap] characters of chunk [i+1]. *)
Theorem split_overlap_full_chunk {A} (text : list A) (chunk_size overlap : Z) :
  0 < chunk_size → 0 ≤ overlap < chunk_size →
  ∃ chunks,
    split_text_into_chunks (S (length text)) text chunk_size overlap = Returns chunks ∧
    ∀ i c c', chunks !! i = Some c → chunks !! S i = Some c' →
      len c = chunk_size ∨ (2 * overlap ≤ chunk_size ∧ (i + 2 < length chunks)%nat) →
      trailing overlap c = leading overlap c'.
Proof.
  intros Hcs Hov. set (step := chunk_size - overlap).
  assert (0 < step) as Hstep by (unfold step; lia).
  pose proof (window_count_le_length text step Hstep) as Hfuel.
  eexists. split; [apply split_texts_closed; [lia|fold step; lia]|].
  fold step. intros i c c' [Hi ->]%lookup_windows [Hi' ->]%lookup_windows Hfull.
  apply window_count_spec in Hi, Hi'; [|done..].
  rewrite Z.add_0_l in *.
  set (s := Z.of_nat i * step) in *.
  assert (0 ≤ s) as Hs by (unfold s; lia).
  assert (s + chunk_size ≤ len text) as Hfit.
  { destruct Hfull as [Hlen|[H2 Hlast]].
    - rewrite length_slice in Hlen by lia. lia.
    - rewrite !length_fmap, length_seq in Hlast.
      apply window_count_spec in Hlast; [|done]. unfold s, step in *. lia. }
  replace (Z.of_nat (S i) * step) with (s + step) by (unfold s; lia).
  unfold trailing, leading. rewrite !slice_take_drop by lia.
  rewrite length_take, length_drop. unfold len in Hfit.
  replace (s + chunk_size - s) with chunk_size by lia.
  replace (s + step + chunk_size - (s + step)) with chunk_size by lia.
  rewrite take_take, (Nat.min_l (Z.to_nat overlap)) by lia.
  replace (Z.to_nat (s + step)) with (Z.to_nat s + Z.to_nat step)%nat by lia.
  rewrite <- drop_drop.
  rewrite (take_drop_commute _ (Z.to_nat overlap) (Z.to_nat step)).
  f_equal; [lia|]. f_equal. unfold step. lia.
Qed.

(** C7: a text of 4300 characters split with [chunk_size = 2000] and
    [overlap = 100] gives exactly three chunks, starting at 0, 1900 and 3800
    and covering [text[0:2000]], [text[1900:3900]] and [text[3800:4300]]. *)
Theorem split_4300_2000_100 {A} (text : list A) (fuel : nat) :
  length text = 4300%nat → (4 ≤ fuel)%nat →
  split_text_into_chunks fuel text 2000 100
    = Returns [slice text 0 2000; slice text 1900 3900; slice text 3800 4300] ∧
  split fuel text 2000 100
    = Returns [mkChunk 0 (slice text 0 2000) 0 2000;
               mkChunk 1 (slice text 1900 3900) 1900 3900;
               mkChunk 2 (slice text 3800 4300) 3800 4300].
Proof.
  intros Hlen Hfuel.
  assert (len text = 4300) as Hn by (unfold len; rewrite Hlen; done).
  assert (slice text 3800 (3800 + 2000) = slice text 3800 4300) as Hlast.
  { rewrite slice_clip by lia. by rewrite Hn. }
  do 4 (destruct fuel as [|fuel]; [lia|]).
  unfold split_text_into_chunks, split.
  cbn [split_loop split_trace]. rewrite !Hn.
  change (0 <? 4300) with true. change (0 + 2000 - 100) with 1900.
  change (1900 <? 4300) with true. change (1900 + 2000 - 100) with 3800.
  change (3800 <? 4300) with true. change (3800 + 2000 - 100) with 5700.
  change (5700 <? 4300) with false. cbn [app length].
  change (0 + 2000) with 2000. change (1900 + 2000) with 3900.
  rewrite Hlast. done.
Qed.

Lemma split_4300_2000_100_witness :
  length (replicate 4300 0%N) = 4300%nat ∧ (4 ≤ 4)%nat ∧
  split_text_into_chunks 4 (replicate 4300 0%N) 2000 100
    = Returns [slice (replicate 4300 0%N) 0 2000;
               slice (replicate 4300 0%N) 1900 3900;
               slice (replicate 4300 0%N) 3800 4300] ∧
  split 4 (replicate 4300 0%N) 2000 100
    = Returns [mkChunk 0 (slice (replicate 4300 0%N) 0 2000) 0 2000;
               mkChunk 1 (slice (replicate 4300 0%N) 1900 3900) 1900 3900;
               mkChunk 2 (slice (replicate 4300 0%N) 3800 4300) 3800 4300].
Proof.
  split; [apply length_replicate|]. split; [lia|].
  apply (split_4300_2000_100 (replicate 4300 0%N) 4); [apply length_replicate|lia].
Defined.

Lemma split_coverage_witness :
  0 < 3 ∧ 0 ≤ 1 < 3 ∧
  ∃ chunks,
    split 6 [97; 98; 99; 100; 101]%N 3 1 = Returns chunks ∧
    split_text_into_chunks 6 [97; 98; 99; 100; 101]%N 3 1
      = Returns (chunk_text <$> chunks) ∧
    (∀ c, c ∈ chunks →
       0 ≤ start_offset c < end_offset c ∧ end_offset c ≤ 5 ∧
       chunk_text c = slice [97; 98; 99; 100; 101]%N (start_offset c) (end_offset c)) ∧
    (∀ p, 0 ≤ p < 5 ↔ ∃ c, c ∈ chunks ∧ start_offset c ≤ p < end_offset c) ∧
    split 6 (@nil codepoint) 3 1 = Returns [] ∧
    split_text_into_chunks 6 (@nil codepoint) 3 1 = Returns [].
Proof.
  split; [lia|]. split; [lia|].
  apply (split_coverage [97; 98; 99; 100; 101]%N 3 1); lia.
Defined.

Lemma split_overlap_full_chunk_witness :
  0 < 3 ∧ 0 ≤ 1 < 3 ∧
  ∃ chunks,
    split_text_into_chunks 6 [97; 98; 99; 100; 101]%N 3 1 = Returns chunks ∧
    ∀ i c c', chunks !! i = Some c → chunks !! S i = Some c' →
      len c = 3 ∨ (2 * 1 ≤ 3 ∧ (i + 2 < length chunks)%nat) →
      trailing 1 c = leading 1 c'.
Proof.
  split; [lia|]. split; [lia|].
  apply (split_overlap_full_chunk [97; 98; 99; 100; 101]%N 3 1); lia.
Defined.

(** C9 as the specification states it fails once [overlap] exceeds half of
    [chunk_size]: ["abc"] with [chunk_size = 4], [overlap = 3] gives
    ["abc"; "bc"; "c"], and the first pair (not the last one) shares only two
    characters. *)
Lemma overlap_property_fails :
  0 < 4 ∧ 0 ≤ 3 < 4 ∧
  split_text_into_chunks 4 [97; 98; 99]%N 4 3
    = Returns [[97; 98; 99]; [98; 99]; [99]]%N ∧
  trailing 3 [97; 98; 99]%N = [97; 98; 99]%N ∧
  leading 3 [98; 99]%N = [98; 99]%N ∧
  ¬ overlap_property [97; 98; 99]%N 4 3.
Proof.
  repeat split; try lia.
  intros H. specialize (H _ eq_refl 0%nat [97; 98; 99]%N [98; 99]%N).
  simpl in H. discriminate H; [lia|done..].
Qed.

(** C1, as amended: the chunker has no configuration check. No input makes
    it raise, and with [overlap >= chunk_size] the empty text still returns
    the empty sequence. *)
Theorem split_never_raises {A} (text : list A) (chunk_size overlap : Z) (fuel : nat) :
  0 < chunk_size → chunk_size ≤ overlap →
  (∀ e, split_text_into_chunks fuel text chunk_size overlap ≠ Raises e) ∧
  split_text_into_chunks (S fuel) (@nil A) chunk_size overlap = Returns [].
Proof.
  intros _ _. split; [|done].
  intros e. apply split_loop_never_raises.
Qed.

Lemma split_never_raises_witness :
  0 < 2 ∧ 2 ≤ 5 ∧
  (∀ e, split_text_into_chunks 3 [97; 98]%N 2 5 ≠ Raises e) ∧
  split_text_into_chunks 4 (@nil codepoint) 2 5 = Returns [].
Proof.
  split; [lia|]. split; [lia|].
  apply (split_never_raises [97; 98]%N 2 5 3); lia.
Defined.

(** C1 as stated fails: the empty text is split into the empty sequence,
    and no budget makes the chunker raise. *)
Lemma fails_fast_refuted :
  0 < 1 ∧ 1 ≥ 1 ∧
  split_text_into_chunks 1 ([] : str) 1 1 = Returns [] ∧
  ¬ fails_fast ([] : str) 1 1 ∧
  ¬ fails_fast [97]%N 1 1.
Proof.
  repeat split; try lia; intros [fuel H]; by apply split_loop_never_raises in H.
Qed.

End ChunkedFacts.

(** ** [str.strip] *)

Module StripFacts.

Lemma lstrip_snoc (s : str) c :
  isspace c = false → lstrip (s ++ [c]) = lstrip s ++ [c].
Proof.
  intros Hc. induction s as [|x s IH]; simpl; [by rewrite Hc|].
  by destruct (isspace x).
Qed.

Lemma head_lstrip (s : str) c : head (lstrip s) = Some c → isspace c = false.
Proof.
  induction s as [|x s IH]; simpl; [done|].
  destruct (isspace x) eqn:Hx; [done|]. simpl. congruence.
Qed.

Lemma lstrip_id (s : str) :
  (∀ c, head s = Some c → isspace c = false) → lstrip s = s.
Proof. destruct s as [|x s]; simpl; [done|]. intros H. by rewrite (H x). Qed.

Lemma lstrip_idemp (s : str) : lstrip (lstrip s) = lstrip s.
Proof. apply lstrip_id, head_lstrip. Qed.

Lemma rstrip_cons (s : str) c :
  isspace c = false → rstrip (c :: s) = c :: rstrip s.
Proof.
  intros Hc. unfold rstrip.
  by rewrite reverse_cons, lstrip_snoc, reverse_snoc.
Qed.

Lemma rstrip_idemp (s : str) : rstrip (rstrip s) = rstrip s.
Proof. unfold rstrip. by rewrite reverse_involutive, lstrip_idemp. Qed.

Lemma head_strip (s : str) c : head (strip s) = Some c → isspace c = false.
Proof.
  unfold strip. pose proof (head_lstrip s) as Hhead.
  destruct (lstrip s) as [|x t]; [done|].
  rewrite rstrip_cons by auto. simpl. intros [= <-]. auto.
Qed.

Lemma last_strip (s : str) c : last (strip s) = Some c → isspace c = false.
Proof. unfold strip, rstrip. rewrite last_reverse. apply head_lstrip. Qed.

Lemma strip_idemp (s : str) : strip (strip s) = strip s.
Proof.
  unfold strip at 1. rewrite lstrip_id by apply head_strip.
  unfold strip. apply rstrip_idemp.
Qed.

Lemma strip_nil : strip [] = [].
Proof. done. Qed.

End StripFacts.

(** ** [merge_news_results] *)

Module MergeFacts.
Import Chunked StripFacts.

Lemma truthy_spec (s : str) : truthy s = true ↔ s ≠ [].
Proof. by destruct s. Qed.

Section merge.
Variable lower : str → str.

Local Abbreviation key := (normalized_key lower).

Lemma key_strip s : key (strip s) = key s.
Proof. unfold normalized_key. by rewrite strip_idemp. Qed.

Lemma deduplicate_loop_app items seen unique :
  deduplicate_loop lower items seen unique
  = unique ++ deduplicate_loop lower items seen [].
Proof.
  revert seen unique. induction items as [|item items IH]; intros seen unique; simpl.
  - by rewrite app_nil_r.
  - destruct (truthy _ && _); [|done].
    rewrite IH, (IH _ [strip item]). by rewrite <- app_assoc.
Qed.

(** The [seen] set of the loop holds the non-empty keys of the items already
    visited: the loop computes the first occurrences. *)
Lemma deduplicate_loop_first_occurrences items seen earlier :
  (∀ k, k ∈ seen ↔ k ≠ [] ∧ k ∈ key <$> earlier) →
  deduplicate_loop lower items seen [] = first_occurrences lower earlier items.
Proof.
  revert seen earlier.
  induction items as [|item items IH]; intros seen earlier Hseen; simpl; [done|].
  fold (key item).
  assert (∀ k, k ∈ key <$> earlier ++ [item] ↔ k ∈ key <$> earlier ∨ k = key item) as Hsnoc.
  { intros k. rewrite fmap_app, elem_of_app. simpl. by rewrite list_elem_of_singleton. }
  destruct (truthy (key item)) eqn:Htruthy; simpl.
  - apply truthy_spec in Htruthy.
    destruct (decide (key item ∈ seen)) as [Hk|Hk].
    + rewrite bool_decide_eq_true_2 by done.
      rewrite bool_decide_eq_true_2 by (by apply Hseen). simpl.
      apply IH. intros k. rewrite Hsnoc, Hseen. split; [tauto|].
      intros [Hne [?| ->]]; [done|]. by apply Hseen.
    + rewrite bool_decide_eq_false_2 by done.
      rewrite bool_decide_eq_false_2 by (rewrite Hseen in Hk; tauto). simpl.
      rewrite deduplicate_loop_app. simpl. f_equal.
      apply IH. intros k. rewrite elem_of_union, elem_of_singleton, Hseen, Hsnoc.
      split; [intros [->|?]; tauto|]. intros [Hne [?| ->]]; tauto.
  - apply IH. intros k. rewrite Hsnoc, Hseen. split; [tauto|].
    intros [Hne [?| ->]]; [done|].
    apply truthy_spec in Hne. congruence.
Qed.

Lemma deduplicate_first_occurrences items :
  deduplicate lower items = first_occurrences lower [] items.
Proof.
  apply deduplicate_loop_first_occurrences. intros k. simpl.
  rewrite elem_of_empty, elem_of_nil. tauto.
Qed.

Lemma extend_results_concat results :
  extend_results results
  = (concat (companies <$> results), concat (persons <$> results),
     concat (events <$> results)).
Proof.
  unfold extend_results.
  enough (∀ a b c,
    foldl (λ '(all_companies, all_persons, all_events) result,
             (all_companies ++ companies result, all_persons ++ persons result,
              all_events ++ events result)) (a, b, c) results
    = (a ++ concat (companies <$> results), b ++ concat (persons <$> results),
       c ++ concat (events <$> results))) as H by apply (H [] [] []).
  induction results as [|r results IH]; intros a b c; simpl.
  - by rewrite !app_nil_r.
  - by rewrite IH, <- !app_assoc.
Qed.

Lemma merge_news_results_unfold results :
  merge_news_results lower results
  = mkNews (deduplicate lower (concat (companies <$> results)))
           (deduplicate lower (concat (persons <$> results)))
           (deduplicate lower (concat (events <$> results))).
Proof. unfold merge_news_results. by rewrite extend_results_concat. Qed.

Lemma merge_news_results_refines results :
  merge_news_results lower results = mergeUnion_spec lower results.
Proof.
  rewrite merge_news_results_unfold. unfold mergeUnion_spec.
  by rewrite !deduplicate_first_occurrences.
Qed.

(** Every entry of the output is the trimmed form of an input entry whose
    key is not empty and was not met before. *)
Lemma elem_of_first_occurrences earlier items s :
  s ∈ first_occurrences lower earlier items →
  ∃ item, item ∈ items ∧ s = strip item ∧ key item ≠ [] ∧
          key item ∉ key <$> earlier.
Proof.
  revert earlier. induction items as [|x items IH]; intros earlier; simpl.
  - by intros ?%elem_of_nil.
  - rewrite elem_of_app. intros [Hs|Hs].
    + destruct (truthy (key x)) eqn:Htruthy; simpl in Hs; [|by apply elem_of_nil in Hs].
      destruct (decide (key x ∈ key <$> earlier)) as [Hk|Hk].
      * rewrite bool_decide_eq_true_2 in Hs by done. by apply elem_of_nil in Hs.
      * rewrite bool_decide_eq_false_2 in Hs by done. simpl in Hs.
        apply list_elem_of_singleton in Hs as ->.
        exists x. rewrite elem_of_cons. apply truthy_spec in Htruthy. auto.
    + destruct (IH _ Hs) as (item & Hitem & -> & Hne & Hnew).
      exists item. rewrite elem_of_cons. repeat split; auto.
      rewrite fmap_app, elem_of_app in Hnew. auto.
Qed.

Lemma NoDup_first_occurrences earlier items :
  NoDup (key <$> first_occurrences lower earlier items).
Proof.
  revert earlier. induction items as [|x items IH]; intros earlier; simpl.
  - constructor.
  - rewrite fmap_app. apply NoDup_app. split; [|split; [|apply IH]].
    + destruct (truthy _ && _); simpl; repeat constructor. apply not_elem_of_nil.
    + intros k Hk (s & -> & Hs)%list_elem_of_fmap.
      destruct (truthy _ && _); simpl in Hk; [|by apply elem_of_nil in Hk].
      apply list_elem_of_singleton in Hk.
      apply elem_of_first_occurrences in Hs as (item & _ & -> & _ & Hnew).
      rewrite !key_strip in Hk. apply Hnew.
      rewrite fmap_app, elem_of_app. right. simpl. rewrite <- Hk.
      by apply list_elem_of_singleton.
Qed.

(** A list of trimmed entries with non-empty, pairwise distinct, unseen keys
    is left as it is. *)
Lemma first_occurrences_id earlier items :
  (∀ s, s ∈ items → strip s = s ∧ key s ≠ [] ∧ key s ∉ key <$> earlier) →
  NoDup (key <$> items) →
  first_occurrences lower earlier items = items.
Proof.
  revert earlier. induction items as [|x items IH]; intros earlier Hitems Hnodup; simpl.
  - done.
  - apply NoDup_cons in Hnodup as [Hx Hnodup].
    destruct (Hitems x) as (Hstrip & Hne & Hnew); [by left|].
    apply truthy_spec in Hne. rewrite Hne, bool_decide_eq_false_2 by done. simpl.
    rewrite Hstrip. f_equal. apply IH; [|done].
    intros s Hs. destruct (Hitems s) as (? & ? & ?); [by right|].
    repeat split; auto. rewrite fmap_app, not_elem_of_app. split; [done|].
    simpl. rewrite list_elem_of_singleton. intros Heq. apply Hx.
    rewrite <- Heq. by apply list_elem_of_fmap_2.
Qed.

Lemma first_occurrences_idemp items :
  first_occurrences lower [] (first_occurrences lower [] items)
  = first_occurrences lower [] items.
Proof.
  apply first_occurrences_id; [|apply NoDup_first_occurrences].
  intros s (item & _ & -> & Hne & _)%elem_of_first_occurrences.
  rewrite strip_idemp, key_strip. repeat split; auto. apply not_elem_of_nil.
Qed.

Lemma deduplicate_idemp items :
  deduplicate lower (deduplicate lower items) = deduplicate lower items.
Proof. rewrite !deduplicate_first_occurrences. apply first_occurrences_idemp. Qed.

Lemma clean_entries_deduplicate items :
  lower [] = [] → clean_entries lower (deduplicate lower items).
Proof.
  intros Hnil. rewrite deduplicate_first_occurrences.
  split; [|apply NoDup_first_occurrences].
  intros s (item & _ & -> & Hne & _)%elem_of_first_occurrences.
  split; [|split; [apply head_strip|apply last_strip]].
  intros Hs. apply Hne. unfold normalized_key. by rewrite Hs.
Qed.

(** On ASCII entries only the ASCII part of [lower] matters. *)
Lemma Forall_lstrip (P : codepoint → Prop) s : Forall P s → Forall P (lstrip s).
Proof.
  induction 1 as [|x s Hx Hs IH]; simpl; [constructor|].
  destruct (isspace x); [done|by constructor].
Qed.

Lemma Forall_strip (P : codepoint → Prop) s : Forall P s → Forall P (strip s).
Proof.
  intros H. unfold strip, rstrip.
  by apply Forall_reverse, Forall_lstrip, Forall_reverse, Forall_lstrip.
Qed.

Lemma deduplicate_loop_ascii items seen unique :
  lowers_ascii lower →
  Forall (Forall (λ c, (c < 128)%N)) items →
  deduplicate_loop lower items seen unique
  = deduplicate_loop lower_ascii_only items seen unique.
Proof.
  intros Hlower Hitems. revert seen unique.
  induction Hitems as [|item items Hitem _ IH]; intros seen unique; simpl; [done|].
  rewrite (Hlower (strip item)) by by apply Forall_strip.
  fold (lower_ascii_only (strip item)). by rewrite !IH.
Qed.

(** Nothing with a non-empty key is lost: its key is met in the output. *)
Lemma first_occurrences_complete earlier items item :
  item ∈ items → key item ≠ [] →
  key item ∈ key <$> earlier ∨
  key item ∈ key <$> first_occurrences lower earlier items.
Proof.
  revert earlier. induction items as [|x items IH]; intros earlier Hin Hne.
  - by apply elem_of_nil in Hin.
  - simpl. rewrite fmap_app, elem_of_app.
    apply elem_of_cons in Hin as [->|Hin].
    + apply truthy_spec in Hne. rewrite Hne. simpl.
      destruct (decide (key x ∈ key <$> earlier)) as [Hk|Hk]; [by left|].
      rewrite bool_decide_eq_false_2 by done. simpl.
      right; left. rewrite key_strip. by apply list_elem_of_singleton.
    + destruct (IH (earlier ++ [x]) Hin Hne) as [Hk|Hk]; [|by right; right].
      rewrite fmap_app, elem_of_app in Hk. destruct Hk as [Hk|Hk]; [by left|].
      simpl in Hk. apply list_elem_of_singleton in Hk. rewrite Hk.
      apply (IH earlier) in Hin; [|done]. rewrite Hk in Hin.
      destruct Hin as [Hin|Hin]; [by left|].
      destruct (decide (key x ∈ key <$> earlier)) as [Hx|Hx]; [by left|].
      right; left. rewrite Hk in Hne. apply truthy_spec in Hne.
      rewrite Hne, bool_decide_eq_false_2 by done. simpl.
      rewrite key_strip. by apply list_elem_of_singleton.
Qed.

Lemma deduplicate_complete items item :
  item ∈ items → key item ≠ [] →
  key item ∈ key <$> deduplicate lower items.
Proof.
  intros Hin Hne. rewrite deduplicate_first_occurrences.
  destruct (first_occurrences_complete [] items item Hin Hne) as [H|H]; [|done].
  by apply elem_of_nil in H.
Qed.

(** C6: [merge_news_results] is the union merge of the specification: per
    category, the results are flattened in chunk order and the first entry of
    every non-empty normalized key is kept, trimmed, in its original case;
    merging [["Ecopetrol"]] with [[" ecopetrol "]] gives [["Ecopetrol"]]. *)
Theorem merge_news_results_union results :
  lowers_ascii lower →
  merge_news_results lower results = mergeUnion_spec lower results ∧
  let a := [of_ascii "Ecopetrol"] in
  let b := [of_ascii " ecopetrol "] in
  merge_news_results lower [mkNews a a a; mkNews b b b] = mkNews a a a.
Proof.
  intros Hlower. split; [apply merge_news_results_refines|].
  intros a b. rewrite merge_news_results_unfold. unfold deduplicate.
  rewrite !deduplicate_loop_ascii by (done || by vm_compute; repeat constructor).
  vm_compute. reflexivity.
Qed.

(** C8: merging the merged result once more, wrapped as a single partial
    result, changes nothing. *)
Theorem merge_news_results_idempotent results :
  merge_news_results lower [merge_news_results lower results]
  = merge_news_results lower results.
Proof.
  rewrite (merge_news_results_unfold [_]). simpl. rewrite !app_nil_r.
  rewrite (merge_news_results_unfold results). simpl.
  by rewrite !deduplicate_idemp.
Qed.

(** C10: every entry of the three output lists is non-empty, neither starts
    nor ends with whitespace, and no two entries of a list share their
    normalized key. *)
Theorem merge_news_results_clean results :
  lower [] = [] →
  clean_entries lower (companies (merge_news_results lower results)) ∧
  clean_entries lower (persons (merge_news_results lower results)) ∧
  clean_entries lower (events (merge_news_results lower results)).
Proof.
  intros Hnil. rewrite merge_news_results_unfold. simpl.
  split; [|split]; by apply clean_entries_deduplicate.
Qed.

End merge.

Lemma lower_ascii_only_lowers_ascii : lowers_ascii lower_ascii_only.
Proof. intros s _. reflexivity. Qed.

Lemma merge_news_results_union_witness :
  let results :=
    [mkNews [of_ascii " Ecopetrol S.A. "; of_ascii "CREG"] [of_ascii "Ana Ruiz"] [];
     mkNews [of_ascii "creg"; of_ascii "   "] [of_ascii "ANA RUIZ "] [of_ascii "Res 40505"]] in
  lowers_ascii lower_ascii_only ∧
  merge_news_results lower_ascii_only results
    = mkNews [of_ascii "Ecopetrol S.A."; of_ascii "CREG"] [of_ascii "Ana Ruiz"]
             [of_ascii "Res 40505"] ∧
  merge_news_results lower_ascii_only results
    = mergeUnion_spec lower_ascii_only results ∧
  let a := [of_ascii "Ecopetrol"] in
  let b := [of_ascii " ecopetrol "] in
  merge_news_results lower_ascii_only [mkNews a a a; mkNews b b b] = mkNews a a a.
Proof.
  intros results.
  split; [exact lower_ascii_only_lowers_ascii|].
  split; [vm_compute; reflexivity|].
  exact (merge_news_results_union lower_ascii_only results lower_ascii_only_lowers_ascii).
Defined.

Lemma merge_news_results_clean_witness :
  let results :=
    [mkNews [of_ascii " Ecopetrol S.A. "; of_ascii "CREG"] [of_ascii "Ana Ruiz"] [];
     mkNews [of_ascii "creg"; of_ascii "   "] [of_ascii "ANA RUIZ "] [[]]] in
  lower_ascii_only [] = [] ∧
  clean_entries lower_ascii_only (companies (merge_news_results lower_ascii_only results)) ∧
  clean_entries lower_ascii_only (persons (merge_news_results lower_ascii_only results)) ∧
  clean_entries lower_ascii_only (events (merge_news_results lower_ascii_only results)).
Proof.
  intros results. split; [reflexivity|].
  apply (merge_news_results_clean lower_ascii_only results). reflexivity.
Defined.

End MergeFacts.

(** ** The sequential loop of [run_news_extraction] *)

Module SequentialFacts.
Import Chunked MergeFacts Collected.

Section extraction.
Variable lower : str → str.
Context {response : Type}.
Variable chain_invoke : nat → str → result response.
Variable parser_parse : response → result News.

Local Abbreviation extract_from_chunk := (extract_from_chunk chain_invoke parser_parse).
Local Abbreviation extraction_loop := (extraction_loop chain_invoke parser_parse).

Lemma extraction_loop_app i chunks results :
  extraction_loop i chunks results = results ++ extraction_loop i chunks [].
Proof.
  revert i results. induction chunks as [|chunk chunks IH]; intros i results; simpl.
  - by rewrite app_nil_r.
  - destruct (extract_from_chunk chunk i) as [news|e]; [|apply IH].
    rewrite IH, (IH _ [news]). by rewrite <- app_assoc.
Qed.

(** The result of a fragment whose extraction returns is collected,
    whatever happens to the other fragments. *)
Lemma elem_of_extraction_loop i chunks k chunk news :
  chunks !! k = Some chunk →
  extract_from_chunk chunk (i + k) = Ok news →
  news ∈ extraction_loop i chunks [].
Proof.
  revert i k. induction chunks as [|c chunks IH]; intros i k Hk Hext; [done|].
  simpl. destruct k as [|k]; simpl in Hk.
  - injection Hk as ->. rewrite Nat.add_0_r in Hext. rewrite Hext.
    rewrite extraction_loop_app. apply elem_of_app. left. by apply list_elem_of_singleton.
  - assert (news ∈ extraction_loop (S i) chunks []) as Hin.
    { apply (IH (S i) k Hk). by replace (S i + k)%nat with (i + S k)%nat by lia. }
    destruct (extract_from_chunk c i) as [n|e]; [|done].
    rewrite extraction_loop_app. apply elem_of_app. by right.
Qed.

(** What the loop collects: the results of the fragments whose extraction
    returned, in fragment order; a fragment whose extraction raises leaves
    no entry. *)
Lemma extraction_loop_kept i chunks :
  extraction_loop i chunks []
  = omap kept (imap (λ k chunk, extract_from_chunk chunk (i + k)) chunks).
Proof.
  revert i. induction chunks as [|chunk chunks IH]; intros i; simpl; [done|].
  rewrite Nat.add_0_r.
  assert (imap ((λ k c, extract_from_chunk c (i + k)) ∘ S) chunks
          = imap (λ k c, extract_from_chunk c (S i + k)) chunks) as ->.
  { apply imap_ext. intros k c _. simpl. f_equal. lia. }
  destruct (extract_from_chunk chunk i) as [news|e]; simpl.
  - rewrite extraction_loop_app. simpl. by rewrite IH.
  - apply IH.
Qed.

Lemma length_extraction_loop i chunks :
  (length (extraction_loop i chunks []) ≤ length chunks)%nat.
Proof.
  revert i. induction chunks as [|c chunks IH]; intros i; simpl; [done|].
  destruct (extract_from_chunk c i) as [n|e].
  - rewrite extraction_loop_app, length_app. simpl. specialize (IH (S i)). lia.
  - specialize (IH (S i)). lia.
Qed.

Lemma merge_news_results_contains results news :
  news ∈ results → contains_data lower (merge_news_results lower results) news.
Proof.
  intros Hin. rewrite merge_news_results_unfold. unfold contains_data, covered. simpl.
  repeat split; intros item Hitem Hne; apply deduplicate_complete; try done;
    apply elem_of_concat; eexists; (split; [exact Hitem|]);
    by apply list_elem_of_fmap_2.
Qed.

(** A parse error gives the empty [News]; an error of the call leaves
    [extract_from_chunk]. *)
Lemma extract_from_chunk_parse_error chunk chunk_num response0 e :
  chain_invoke chunk_num chunk = Ok response0 →
  parser_parse response0 = Err e →
  extract_from_chunk chunk chunk_num = Ok (mkNews [] [] []).
Proof. intros H1 H2. unfold Chunked.extract_from_chunk. rewrite H1. simpl. by rewrite H2. Qed.

Lemma extract_from_chunk_invoke_error chunk chunk_num e :
  chain_invoke chunk_num chunk = Err e →
  extract_from_chunk chunk chunk_num = Err e.
Proof. intros H. unfold Chunked.extract_from_chunk. by rewrite H. Qed.

End extraction.
End SequentialFacts.

(** ** The concurrent pool *)

Module ExtractorFacts.
Import Extractor.

Example getattr_persons :
  getattr (mkNews [] [of_ascii "Ana"] []) "persons" = Some (PyList [of_ascii "Ana"]).
Proof. reflexivity. Qed.

Example getattr_failed : getattr News_default "failed" = None.
Proof. reflexivity. Qed.

(** Three fragments whose calls complete in the order 1, 0, 2: every answer
    carries its completion time and sits in the slot of its fragment. *)
Example gather_out_of_order :
  gathered (schedule Doubles.stamp Doubles.parse_company
              [of_ascii "a"; of_ascii "b"; of_ascii "c"] [1; 0; 2]%nat)
  = Some [mkNews [of_ascii "a" ++ [1%N]] [] [];
          mkNews [of_ascii "b" ++ [0%N]] [] [];
          mkNews [of_ascii "c" ++ [2%N]] [] []].
Proof. reflexivity. Qed.

Section NewsExtractor.
Context {response : Type}.
Variable MAX_CONCURRENCY : nat.
Variable split_text : str → list str.
Variable chunk_ainvoke : nat → str → result response.
Variable chunk_parser_parse : response → result News.
Variable final_ainvoke : context_data → result response.
Variable final_parser_parse : response → result ConsolidatedNews.t.

Local Abbreviation process_chunk := (process_chunk chunk_ainvoke chunk_parser_parse).
Local Abbreviation pool_step :=
  (pool_step MAX_CONCURRENCY chunk_ainvoke chunk_parser_parse).
Local Abbreviation pool_run :=
  (pool_run MAX_CONCURRENCY chunk_ainvoke chunk_parser_parse).

Local Abbreviation extraction := (extraction chunk_ainvoke chunk_parser_parse).
Local Abbreviation pool_inv :=
  (pool_inv MAX_CONCURRENCY chunk_ainvoke chunk_parser_parse).
Local Abbreviation consolidate_results :=
  (consolidate_results final_ainvoke final_parser_parse).
Local Abbreviation run :=
  (run MAX_CONCURRENCY split_text chunk_ainvoke chunk_parser_parse
       final_ainvoke final_parser_parse).

(** An extraction that raises, in the call or in the parser, is caught. *)
Lemma process_chunk_failure t chunk chunk_id e :
  extraction t chunk = Err e →
  process_chunk t chunk chunk_id = News_default.
Proof. intros Hfail. unfold Extractor.process_chunk. by rewrite Hfail. Qed.

Lemma process_chunk_success t chunk chunk_id news :
  extraction t chunk = Ok news →
  process_chunk t chunk chunk_id = news.
Proof. intros H. unfold Extractor.process_chunk. by rewrite H. Qed.

Lemma extraction_raises t chunk e :
  extraction t chunk = Err e ↔
  chunk_ainvoke t chunk = Err e ∨
  ∃ response0, chunk_ainvoke t chunk = Ok response0 ∧
               chunk_parser_parse response0 = Err e.
Proof.
  unfold Extractor.extraction.
  destruct (chunk_ainvoke t chunk) as [r|e']; simpl.
  - split; [intros H; right; by exists r|].
    intros [H|(r' & [= <-] & H)]; done.
  - split; [intros [= ->]; by left|].
    intros [[= ->]|(r' & H & _)]; done.
Qed.

(** Counting the tasks in a given state across the update of one slot. *)
Lemma length_filter_insert (P : task → Prop) `{!∀ t, Decision (P t)} l i x y :
  l !! i = Some x →
  (length (filter P (<[i:=y]> l)) + (if decide (P x) then 1 else 0)
   = length (filter P l) + (if decide (P y) then 1 else 0))%nat.
Proof.
  intros Hi. rewrite insert_take_drop by (by eapply lookup_lt_Some).
  rewrite <- (take_drop_middle l i x Hi) at 3.
  rewrite !filter_app, !filter_cons, !length_app.
  destruct (decide (P x)), (decide (P y)); simpl; lia.
Qed.

Lemma filter_replicate_Waiting (P : task → Prop) `{!∀ t, Decision (P t)} n :
  ¬ P Waiting → filter P (replicate n Waiting) = [].
Proof.
  intros HP. induction n as [|n IH]; simpl; [done|].
  by rewrite filter_cons_False.
Qed.

Lemma pool_inv_init chunks : pool_inv chunks (pool_init chunks).
Proof.
  unfold Extractor.pool_inv, finished_count, in_flight. simpl.
  rewrite !filter_replicate_Waiting by done. simpl.
  repeat split; [apply length_replicate|lia|].
  intros i r [? _]%lookup_replicate. done.
Qed.

Lemma pool_inv_step chunks p q :
  pool_inv chunks p → pool_step chunks p q → pool_inv chunks q.
Proof.
  intros (Hlen & Hdone & Hbound & Hslots) Hstep.
  destruct Hstep as [p i Hwait Hfree|p i chunk Hrun Hchunk];
    unfold Extractor.pool_inv, finished_count, in_flight in *; simpl.
  - pose proof (length_filter_insert (λ t, is_finished t = true) _ _ _ Running Hwait) as Hf.
    pose proof (length_filter_insert (λ t, is_running t = true) _ _ _ Running Hwait) as Hr.
    simpl in Hf, Hr. rewrite length_insert.
    repeat split; [done|lia|lia|].
    intros j r Hj. destruct (decide (i = j)) as [->|Hne].
    + rewrite list_lookup_insert_eq in Hj by (by eapply lookup_lt_Some). done.
    + rewrite list_lookup_insert_ne in Hj by done. by apply Hslots.
  - set (r0 := Finished (process_chunk (completed p) chunk i)).
    pose proof (length_filter_insert (λ t, is_finished t = true) _ _ _ r0 Hrun) as Hf.
    pose proof (length_filter_insert (λ t, is_running t = true) _ _ _ r0 Hrun) as Hr.
    simpl in Hf, Hr. rewrite length_insert.
    repeat split; [done|lia|lia|].
    intros j r Hj. destruct (decide (i = j)) as [->|Hne].
    + rewrite list_lookup_insert_eq in Hj by (by eapply lookup_lt_Some).
      injection Hj as <-. exists chunk, (completed p). auto.
    + rewrite list_lookup_insert_ne in Hj by done.
      destruct (Hslots j r Hj) as (c & t & ? & ? & ?). exists c, t. auto with lia.
Qed.

Lemma pool_inv_reachable chunks p :
  rtc (pool_step chunks) (pool_init chunks) p → pool_inv chunks p.
Proof.
  revert p. apply rtc_ind_r.
  - apply pool_inv_init.
  - eauto using pool_inv_step.
Qed.

Lemma gathered_lookup p raw_results :
  gathered p = Some raw_results →
  length raw_results = length (tasks p) ∧
  ∀ i r, raw_results !! i = Some r → tasks p !! i = Some (Finished r).
Proof.
  unfold gathered. intros H%mapM_Some_1. split.
  - symmetry. by eapply Forall2_length.
  - intros i r Hr.
    destruct (Forall2_lookup_r _ _ _ _ _ H Hr) as (t & Ht & Hres).
    destruct t; simpl in Hres; try done. congruence.
Qed.

Lemma pool_run_slots chunks raw_results :
  pool_run chunks raw_results →
  length raw_results = length chunks ∧
  ∀ i chunk, chunks !! i = Some chunk →
    ∃ t, (t < length chunks)%nat ∧ raw_results !! i = Some (process_chunk t chunk i).
Proof.
  intros (p & Hreach & Hgather).
  apply pool_inv_reachable in Hreach as (Hlen & Hdone & _ & Hslots).
  apply gathered_lookup in Hgather as [Hlen' Hfin].
  split; [congruence|]. intros i chunk Hchunk.
  destruct (lookup_lt_is_Some_2 raw_results i) as [r Hr].
  { rewrite Hlen', Hlen. by eapply lookup_lt_Some. }
  destruct (Hslots i r (Hfin i r Hr)) as (c & t & Hc & Ht & ->).
  exists t. split; [|congruence].
  pose proof (length_filter (λ t, is_finished t = true) (tasks p)) as Hle.
  unfold finished_count in Hdone. lia.
Qed.

(** A finished slot is never written again. *)
Lemma finished_step chunks p q i r :
  pool_step chunks p q →
  tasks p !! i = Some (Finished r) → tasks q !! i = Some (Finished r).
Proof.
  intros Hstep Hi. destruct Hstep as [p j Hwait _|p j chunk Hrun _]; simpl;
    (destruct (decide (j = i)) as [->|Hne]; [congruence|]);
    by rewrite list_lookup_insert_ne.
Qed.

Lemma finished_stable chunks p q i r :
  rtc (pool_step chunks) p q →
  tasks p !! i = Some (Finished r) → tasks q !! i = Some (Finished r).
Proof. induction 1; eauto using finished_step. Qed.

(** The step in which the call of task [i] completes stores the outcome of
    the extraction at the time of that step. *)
Lemma completing_step chunks p q i chunk r :
  pool_step chunks p q →
  tasks p !! i = Some Running → tasks q !! i = Some (Finished r) →
  chunks !! i = Some chunk →
  r = process_chunk (completed p) chunk i.
Proof.
  intros Hstep Hp Hq Hchunk.
  destruct Hstep as [p j Hwait _|p j chunk' Hrun Hchunk']; simpl in Hq.
  - destruct (decide (j = i)) as [->|Hne]; [congruence|].
    rewrite list_lookup_insert_ne in Hq by done. congruence.
  - destruct (decide (j = i)) as [->|Hne].
    + rewrite list_lookup_insert_eq in Hq by (by eapply lookup_lt_Some). congruence.
    + rewrite list_lookup_insert_ne in Hq by done. congruence.
Qed.

(** The order in which the calls have completed so far: its entry [t] is the
    task whose call completed at time [t], and the finished tasks are the
    ones it lists. *)
Lemma completion_order_reachable chunks p :
  rtc (pool_step chunks) (pool_init chunks) p →
  ∃ order : list nat,
    NoDup order ∧
    length order = completed p ∧
    (∀ i, i ∈ order ↔ ∃ r, tasks p !! i = Some (Finished r)) ∧
    ∀ t i, order !! t = Some i →
      ∃ chunk, chunks !! i = Some chunk ∧
               tasks p !! i = Some (Finished (process_chunk t chunk i)).
Proof.
  revert p. apply rtc_ind_r.
  - exists []. split; [constructor|]. split; [done|]. split.
    + intros i. split; [by intros ?%elem_of_nil|].
      intros [r [Hr _]%lookup_replicate]. done.
    + intros t i Ht. by rewrite lookup_nil in Ht.
  - intros p q _ Hstep (order & Hnodup & Hlen & Hmem & Hslots).
    destruct Hstep as [p i Hwait _|p i chunk Hrun Hchunk]; simpl.
    + exists order. split; [done|]. split; [done|]. split.
      * intros k. rewrite Hmem. destruct (decide (i = k)) as [->|Hne].
        -- rewrite list_lookup_insert_eq by (by eapply lookup_lt_Some).
           rewrite Hwait. split; intros [r Hr]; done.
        -- by rewrite list_lookup_insert_ne.
      * intros t k Ht. destruct (Hslots t k Ht) as (c & Hc & Hk).
        exists c. split; [done|].
        rewrite list_lookup_insert_ne; [done|]. intros ->. congruence.
    + assert (i ∉ order) as Hfresh.
      { intros [r Hr]%Hmem. congruence. }
      exists (order ++ [i]). split.
      { apply NoDup_app. split; [done|]. split; [|apply NoDup_singleton].
        intros k Hk ->%list_elem_of_singleton. done. }
      split; [rewrite length_app; simpl; lia|]. split.
      * intros k. rewrite elem_of_app, list_elem_of_singleton, Hmem.
        destruct (decide (i = k)) as [->|Hne].
        -- rewrite list_lookup_insert_eq by (by eapply lookup_lt_Some).
           split; [by eexists|auto].
        -- rewrite list_lookup_insert_ne by done.
           split; [intros [?|?]; [done|congruence]|auto].
      * intros t k Ht. apply lookup_snoc_Some in Ht as [[Hlt Ht]|[-> ->]].
        -- destruct (Hslots t k Ht) as (c & Hc & Hk). exists c. split; [done|].
           rewrite list_lookup_insert_ne; [done|]. intros ->. congruence.
        -- exists chunk. split; [done|]. rewrite Hlen.
           apply list_lookup_insert_eq. by eapply lookup_lt_Some.
Qed.

(** Every list [gather] returns comes from a completion order: a
    permutation of the tasks whose entry [t] is the task that completed at
    time [t], the slot of that task holding what [process_chunk] made of the
    extraction at that time. *)
Lemma pool_run_completion_order chunks raw_results :
  pool_run chunks raw_results →
  ∃ order,
    order ≡ₚ seq 0 (length chunks) ∧
    ∀ t i chunk, order !! t = Some i → chunks !! i = Some chunk →
      raw_results !! i = Some (process_chunk t chunk i).
Proof.
  intros (p & Hreach & Hgather).
  pose proof (pool_inv_reachable _ _ Hreach) as (Hlen & _).
  destruct (completion_order_reachable _ _ Hreach) as (order & Hnodup & _ & Hmem & Hslots).
  apply gathered_lookup in Hgather as [Hlen' Hfin].
  assert (∀ i, (i < length chunks)%nat → ∃ r, raw_results !! i = Some r) as Hsome.
  { intros i Hi. apply lookup_lt_is_Some_2. by rewrite Hlen', Hlen. }
  exists order. split.
  - apply NoDup_Permutation; [done|apply NoDup_seq|].
    intros i. rewrite elem_of_seq, Hmem. split.
    + intros [r Hr%lookup_lt_Some]. lia.
    + intros [_ Hi]. destruct (Hsome i) as [r Hr]; [lia|]. exists r. by apply Hfin.
  - intros t i chunk Ht Hchunk.
    destruct (Hslots t i Ht) as (c & Hc & Hi).
    destruct (Hsome i) as [r Hr]; [by eapply lookup_lt_Some|].
    rewrite Hr. apply Hfin in Hr. congruence.
Qed.

(** Any completion order can happen: the calls may complete one at a time
    in the given order, and the state reached is the one [schedule] computes. *)
Lemma schedule_reachable chunks order :
  (1 ≤ MAX_CONCURRENCY)%nat →
  NoDup order → (∀ i, i ∈ order → (i < length chunks)%nat) →
  rtc (pool_step chunks) (pool_init chunks) (schedule chunk_ainvoke chunk_parser_parse chunks order) ∧
  completed (schedule chunk_ainvoke chunk_parser_parse chunks order) = length order ∧
  length (tasks (schedule chunk_ainvoke chunk_parser_parse chunks order)) = length chunks ∧
  in_flight (schedule chunk_ainvoke chunk_parser_parse chunks order) = 0%nat ∧
  (∀ j i, order !! j = Some i →
     ∃ chunk, chunks !! i = Some chunk ∧
       tasks (schedule chunk_ainvoke chunk_parser_parse chunks order) !! i
       = Some (Finished (process_chunk j chunk i))) ∧
  (∀ i, (i < length chunks)%nat → i ∉ order →
     tasks (schedule chunk_ainvoke chunk_parser_parse chunks order) !! i = Some Waiting).
Proof.
  intros Hmax. induction order as [|i done IH] using rev_ind; intros Hnodup Hlt.
  - unfold schedule. simpl. split; [done|]. split; [done|].
    split; [apply length_replicate|]. split.
    { unfold in_flight. simpl. by rewrite filter_replicate_Waiting. }
    split; [intros j i Hj; by rewrite lookup_nil in Hj|].
    intros i Hi _. by apply lookup_replicate_2.
  - apply NoDup_app in Hnodup as (Hnodup & Hfresh & _).
    assert (i ∉ done) as Hi.
    { intros Hin. apply (Hfresh i Hin). by apply list_elem_of_singleton. }
    assert (i < length chunks)%nat as Hilt.
    { apply Hlt. rewrite elem_of_app, list_elem_of_singleton. by right. }
    destruct IH as (Hreach & Hcount & Hlen & Hidle & Hfin & Hwait); [done|..].
    { intros k Hk. apply Hlt. rewrite elem_of_app. by left. }
    destruct (lookup_lt_is_Some_2 chunks i Hilt) as [chunk Hchunk].
    unfold schedule in *. rewrite foldl_snoc.
    set (p := foldl _ _ done) in *.
    assert (tasks p !! i = Some Waiting) as Hpi by auto.
    assert (tasks (acquire i p) !! i = Some Running) as Hrun.
    { simpl. apply list_lookup_insert_eq. by rewrite Hlen. }
    pose proof (step_acquire MAX_CONCURRENCY chunk_ainvoke chunk_parser_parse
                  chunks p i Hpi ltac:(lia)) as Hstep1.
    pose proof (step_complete MAX_CONCURRENCY chunk_ainvoke chunk_parser_parse
                  chunks (acquire i p) i chunk Hrun Hchunk) as Hstep2.
    fold (acquire i p) in Hstep1.
    unfold complete at 1 2 3 4 5 6. rewrite Hchunk.
    set (q := mkPool _ _) in *.
    split; [eapply rtc_r; [eapply rtc_r|]; eauto|].
    split; [subst q; simpl; rewrite length_app; simpl; lia|].
    split; [subst q; simpl; by rewrite !length_insert|].
    split.
    { pose proof (length_filter_insert (λ t, is_running t = true) _ _ _ Running Hpi) as H1.
      pose proof (length_filter_insert (λ t, is_running t = true) _ _ _
                    (Finished (process_chunk (completed p) chunk i)) Hrun) as H2.
      unfold in_flight in *. subst q. simpl in *. lia. }
    split.
    + intros j k Hj. apply lookup_snoc_Some in Hj as [[Hjlt Hj]|[-> ->]].
      * destruct (Hfin j k Hj) as (c & Hc & Hk). exists c. split; [done|].
        subst q. simpl. rewrite !list_lookup_insert_ne; [done|..];
          intros ->; apply Hi; by eapply list_elem_of_lookup_2.
      * exists chunk. split; [done|]. subst q. simpl.
        rewrite list_lookup_insert_eq by (by rewrite length_insert, Hlen).
        by rewrite Hcount.
    + intros k Hk Hnotin. rewrite not_elem_of_app, list_elem_of_singleton in Hnotin.
      destruct Hnotin as [Hnotin Hne]. subst q. simpl.
      rewrite !list_lookup_insert_ne by done. auto.
Qed.

Lemma pool_run_in_order chunks order :
  (1 ≤ MAX_CONCURRENCY)%nat →
  order ≡ₚ seq 0 (length chunks) →
  ∃ raw_results,
    pool_run chunks raw_results ∧
    ∀ j i chunk, order !! j = Some i → chunks !! i = Some chunk →
      raw_results !! i = Some (process_chunk j chunk i).
Proof.
  intros Hmax Hperm.
  destruct (schedule_reachable chunks order Hmax)
    as (Hreach & _ & Hlen & _ & Hfin & _).
  { rewrite Hperm. apply NoDup_seq. }
  { intros i Hi. rewrite Hperm in Hi. apply elem_of_seq in Hi. lia. }
  set (p := schedule chunk_ainvoke chunk_parser_parse chunks order) in *.
  assert (∀ i, (i < length chunks)%nat → ∃ j, order !! j = Some i) as Hpos.
  { intros i Hi. apply list_elem_of_lookup. rewrite Hperm. apply elem_of_seq. lia. }
  destruct (mapM_is_Some_2 task_result (tasks p)) as [raw_results Hgather].
  { apply Forall_lookup. intros i t Hi.
    destruct (Hpos i) as [j Hj]; [rewrite <- Hlen; by eapply lookup_lt_Some|].
    destruct (Hfin j i Hj) as (c & _ & Ht). simpl.
    rewrite Hi in Ht. injection Ht as ->. by eexists. }
  exists raw_results. split; [by exists p|].
  intros j i chunk Hj Hchunk.
  destruct (Hfin j i Hj) as (c & Hc & Ht).
  apply gathered_lookup in Hgather as [Hlen' Hslots].
  destruct (lookup_lt_is_Some_2 raw_results i) as [r Hr].
  { rewrite Hlen', Hlen. by eapply lookup_lt_Some. }
  rewrite Hr. apply Hslots in Hr. congruence.
Qed.

Lemma reaches_context_elem raw_results news :
  news ∈ raw_results → reaches_context news (make_context raw_results).
Proof.
  intros Hin. unfold reaches_context, make_context. simpl.
  repeat split; intros item Hitem;
    apply elem_of_elements, elem_of_list_to_set, elem_of_concat;
    eexists; (split; [exact Hitem|]); by apply list_elem_of_fmap_2.
Qed.

Lemma consolidate_results_raises raw_results e :
  consolidation_raises final_ainvoke final_parser_parse raw_results e →
  consolidate_results raw_results = Err e.
Proof.
  unfold Extractor.consolidate_results.
  intros [H|(r & H & Hparse)]; rewrite H; simpl; done.
Qed.

(** C4: whatever the order in which the model calls complete, the list
    [gather] returns has one entry per chunk and its entry [i] is the result
    of chunk [i]; and every completion order does occur. *)
Theorem gather_keeps_chunk_order (chunks : list str) :
  (1 ≤ MAX_CONCURRENCY)%nat →
  (∀ raw_results, pool_run chunks raw_results →
     length raw_results = length chunks ∧
     ∀ i chunk, chunks !! i = Some chunk →
       ∃ t, (t < length chunks)%nat ∧
            raw_results !! i = Some (process_chunk t chunk i)) ∧
  (∀ order, order ≡ₚ seq 0 (length chunks) →
     ∃ raw_results,
       pool_run chunks raw_results ∧
       ∀ j i chunk, order !! j = Some i → chunks !! i = Some chunk →
         raw_results !! i = Some (process_chunk j chunk i)).
Proof.
  intros Hmax. split.
  - apply pool_run_slots.
  - intros order. by apply pool_run_in_order.
Qed.

(** C2, as amended: when the consolidation primitive raises or its output
    does not parse, [consolidate_results] raises that failure; nothing falls
    back to a union merge, [run] ends with the same failure and [Done] is
    not reached. *)
Theorem consolidate_results_propagates (content : str) (raw_results : list News) (e : exn) :
  content ≠ [] →
  pool_run (split_text content) raw_results →
  consolidation_raises final_ainvoke final_parser_parse raw_results e →
  consolidate_results raw_results = Err e ∧
  mergeConsolidate final_ainvoke final_parser_parse raw_results = Err e ∧
  run_after_gather final_ainvoke final_parser_parse raw_results = Err e ∧
  run content (Err e) ∧
  ¬ reaches_Done (Err e).
Proof.
  intros Hcontent Hpool Hfail.
  pose proof (consolidate_results_raises _ _ Hfail) as Hraise.
  assert (run_after_gather final_ainvoke final_parser_parse raw_results = Err e) as Hafter.
  { unfold run_after_gather. by rewrite Hraise. }
  split; [done|]. split; [unfold mergeConsolidate; by rewrite Hraise|].
  split; [done|]. split.
  - rewrite <- Hafter. by constructor.
  - by intros [n ?].
Qed.

(** What [process_chunk] leaves for an extraction: its result, or [News()],
    which has three empty lists and no [failed] attribute. *)
Lemma process_chunk_cases t chunk chunk_id :
  match extraction t chunk with
  | Ok news => process_chunk t chunk chunk_id = news
  | Err e =>
      process_chunk t chunk chunk_id = News_default ∧
      companies (process_chunk t chunk chunk_id) = [] ∧
      persons (process_chunk t chunk chunk_id) = [] ∧
      events (process_chunk t chunk chunk_id) = [] ∧
      getattr (process_chunk t chunk chunk_id) "failed" = None
  end.
Proof.
  unfold Extractor.process_chunk. by destruct (Extractor.extraction _ _ t chunk).
Qed.

(** A finished slot is handed over by [gather] as it is. *)
Lemma gathered_finished p raw_results i r :
  gathered p = Some raw_results →
  tasks p !! i = Some (Finished r) → raw_results !! i = Some r.
Proof.
  unfold gathered. intros H%mapM_Some_1 Hi.
  destruct (Forall2_lookup_l _ _ _ _ _ H Hi) as (r' & Hr' & Hres).
  simpl in Hres. congruence.
Qed.

End NewsExtractor.
End ExtractorFacts.

(** ** Failure isolation across both pipelines *)

Module PipelineFacts.
Import Chunked Extractor Collected Doubles MergeFacts SequentialFacts ExtractorFacts.

Section pipelines.
Variable lower : str → str.
Context {response response' : Type}.
Variable chain_invoke : nat → str → result response.
Variable parser_parse : response → result News.
Variable MAX_CONCURRENCY : nat.
Variable chunk_ainvoke : nat → str → result response'.
Variable chunk_parser_parse : response' → result News.

(** C3, as amended. In the pool of [NewsExtractor] a raising extraction is
    caught inside [process_chunk] and [gather] is never aborted: it returns
    one [News] per chunk, in chunk order. The calls of a run complete in some
    order, a permutation of the chunks; the entry of chunk [i] is decided by
    its extraction at the time [t] at which its own call completed: the
    extracted [News], or, when that extraction raised, [News()], with three
    empty lists and no [failed] attribute. This holds step by step: the step
    in which the call of chunk [i] completes stores that outcome, for the
    number of calls completed before it, and the list [gather] returns later
    holds it unchanged; its entities are in the raw lists given to the
    consolidation call. In the loop of [run_news_extraction] a raising
    extraction is skipped and the loop goes on: the collected list holds, in
    order, the results of exactly the chunks whose extraction returned, and
    [merge_news_results] of it contains the data of each of them. *)
Theorem failures_are_isolated (chunks : list str) :
  (1 ≤ MAX_CONCURRENCY)%nat →
  ((∃ raw_results, pool_run MAX_CONCURRENCY chunk_ainvoke chunk_parser_parse chunks raw_results) ∧
   (∀ raw_results,
      pool_run MAX_CONCURRENCY chunk_ainvoke chunk_parser_parse chunks raw_results →
      length raw_results = length chunks ∧
      ∃ order,
        order ≡ₚ seq 0 (length chunks) ∧
        ∀ t i chunk, order !! t = Some i → chunks !! i = Some chunk →
          ∃ r, raw_results !! i = Some r ∧
            match extraction chunk_ainvoke chunk_parser_parse t chunk with
            | Ok news => r = news ∧ reaches_context news (make_context raw_results)
            | Err e =>
                r = News_default ∧
                companies r = [] ∧ persons r = [] ∧ events r = [] ∧
                getattr r "failed" = None
            end) ∧
   (∀ p q i chunk r,
      pool_step MAX_CONCURRENCY chunk_ainvoke chunk_parser_parse chunks p q →
      tasks p !! i = Some Running → tasks q !! i = Some (Finished r) →
      chunks !! i = Some chunk →
      match extraction chunk_ainvoke chunk_parser_parse (completed p) chunk with
      | Ok news => r = news
      | Err e => r = News_default
      end ∧
      ∀ p' raw_results,
        rtc (pool_step MAX_CONCURRENCY chunk_ainvoke chunk_parser_parse chunks) q p' →
        gathered p' = Some raw_results →
        raw_results !! i = Some r ∧ reaches_context r (make_context raw_results))) ∧
  (extraction_loop chain_invoke parser_parse 1 chunks []
   = omap kept (imap (λ k chunk, extract_from_chunk chain_invoke parser_parse chunk (S k))
                     chunks) ∧
   ∀ i chunk news, chunks !! i = Some chunk →
     extract_from_chunk chain_invoke parser_parse chunk (S i) = Ok news →
     news ∈ extraction_loop chain_invoke parser_parse 1 chunks [] ∧
     contains_data lower
       (merge_news_results lower (extraction_loop chain_invoke parser_parse 1 chunks []))
       news).
Proof.
  intros Hmax. split; [split; [|split]|split].
  - destruct (pool_run_in_order MAX_CONCURRENCY chunk_ainvoke chunk_parser_parse
                chunks (seq 0 (length chunks)) Hmax) as (r & Hr & _); [done|by exists r].
  - intros raw_results Hrun.
    destruct (pool_run_slots _ _ _ _ _ Hrun) as [Hlen _]. split; [done|].
    destruct (pool_run_completion_order _ _ _ _ _ Hrun) as (order & Hperm & Hslots).
    exists order. split; [done|]. intros t i chunk Ht Hchunk.
    specialize (Hslots t i chunk Ht Hchunk).
    exists (process_chunk chunk_ainvoke chunk_parser_parse t chunk i). split; [done|].
    pose proof (process_chunk_cases chunk_ainvoke chunk_parser_parse t chunk i) as Hcase.
    destruct (extraction chunk_ainvoke chunk_parser_parse t chunk) as [news|e]; [|done].
    split; [done|]. apply reaches_context_elem. rewrite <- Hcase.
    by eapply list_elem_of_lookup_2.
  - intros p q i chunk r Hstep Hp Hq Hchunk.
    pose proof (completing_step _ _ _ _ _ _ _ _ _ Hstep Hp Hq Hchunk) as ->. split.
    + pose proof (process_chunk_cases chunk_ainvoke chunk_parser_parse
                    (completed p) chunk i) as Hcase.
      destruct (extraction chunk_ainvoke chunk_parser_parse (completed p) chunk);
        [done|by destruct Hcase].
    + intros p' raw_results Hreach Hgather.
      pose proof (finished_stable _ _ _ _ _ _ _ _ Hreach Hq) as Hp'.
      pose proof (gathered_finished _ _ _ _ Hgather Hp') as Hr.
      split; [done|]. apply reaches_context_elem. by eapply list_elem_of_lookup_2.
  - apply (extraction_loop_kept chain_invoke parser_parse 1).
  - intros i chunk news Hchunk Hext.
    assert (news ∈ extraction_loop chain_invoke parser_parse 1 chunks []) as Hin.
    { by eapply elem_of_extraction_loop. }
    split; [done|]. by apply merge_news_results_contains.
Qed.

End pipelines.

(** *** Runs of the models on the stand-ins *)

Lemma pool_run_singleton {response : Type} max
    (ainvoke : nat → str → result response) parse chunk :
  (1 ≤ max)%nat →
  pool_run max ainvoke parse [chunk] [process_chunk ainvoke parse 0 chunk 0].
Proof.
  intros Hmax.
  destruct (pool_run_in_order max ainvoke parse [chunk] [0%nat] Hmax)
    as (raw_results & Hrun & Hslot); [done|].
  specialize (Hslot 0%nat 0%nat chunk eq_refl eq_refl).
  destruct (pool_run_slots _ _ _ _ _ Hrun) as [Hlen _].
  destruct raw_results as [|r [|??]]; simpl in *; try done.
  by injection Hslot as ->.
Qed.

Lemma gather_keeps_chunk_order_witness :
  let chunks := [of_ascii "a"; of_ascii "b"; of_ascii "c"] in
  (1 ≤ 2)%nat ∧
  (∀ raw_results, pool_run 2 flaky parse_company chunks raw_results →
     length raw_results = length chunks ∧
     ∀ i chunk, chunks !! i = Some chunk →
       ∃ t, (t < length chunks)%nat ∧
            raw_results !! i = Some (process_chunk flaky parse_company t chunk i)) ∧
  (∀ order, order ≡ₚ seq 0 (length chunks) →
     ∃ raw_results,
       pool_run 2 flaky parse_company chunks raw_results ∧
       ∀ j i chunk, order !! j = Some i → chunks !! i = Some chunk →
         raw_results !! i = Some (process_chunk flaky parse_company j chunk i)).
Proof.
  intros chunks. split; [lia|].
  apply (gather_keeps_chunk_order 2 flaky parse_company chunks). lia.
Defined.

Lemma consolidate_results_propagates_witness :
  let content := of_ascii "a" in
  let raw_results := [mkNews [of_ascii "a"] [] []] in
  content ≠ [] ∧
  pool_run 1 echo parse_company (split_chars content) raw_results ∧
  consolidation_raises final_raises final_rejects raw_results InvokeError ∧
  consolidate_results final_raises final_rejects raw_results = Err InvokeError ∧
  mergeConsolidate final_raises final_rejects raw_results = Err InvokeError ∧
  run_after_gather final_raises final_rejects raw_results = Err InvokeError ∧
  run 1 split_chars echo parse_company final_raises final_rejects content (Err InvokeError) ∧
  ¬ reaches_Done (Err InvokeError).
Proof.
  intros content raw_results.
  assert (content ≠ []) as Hcontent by done.
  assert (pool_run 1 echo parse_company (split_chars content) raw_results) as Hpool.
  { apply (pool_run_singleton 1 echo parse_company (of_ascii "a")). lia. }
  assert (consolidation_raises final_raises final_rejects raw_results InvokeError) as Hfail.
  { by left. }
  split; [done|]. split; [done|]. split; [done|].
  exact (consolidate_results_propagates 1 split_chars echo parse_company
           final_raises final_rejects content raw_results InvokeError
           Hcontent Hpool Hfail).
Defined.

(** C2 as stated fails: with a consolidation call that raises there is no
    result at all, let alone the union merge. *)
Lemma consolidation_fallback_fails :
  ¬ consolidation_fallback 1 split_chars echo parse_company final_raises final_rejects
      (merge_news_results lower_ascii_only)
      (of_ascii "a") [mkNews [of_ascii "a"] [] []].
Proof.
  intros H. destruct H as [Hmerge _]; [done| |by exists InvokeError; left|done].
  apply (pool_run_singleton 1 echo parse_company (of_ascii "a")). lia.
Qed.

Lemma failures_are_isolated_witness :
  let chunks := [of_ascii "a"; of_ascii "b"; of_ascii "c"] in
  (1 ≤ 2)%nat ∧
  extraction_loop flaky parse_company 1 chunks []
  = [mkNews [of_ascii "a"] [] []; mkNews [of_ascii "c"] [] []] ∧
  (let p := acquire 1 (pool_init chunks) in
   let q := complete flaky parse_company chunks 1 p in
   pool_step 2 flaky parse_company chunks p q ∧
   tasks p !! 1%nat = Some Running ∧
   tasks q !! 1%nat = Some (Finished News_default)) ∧
  ((∃ raw_results, pool_run 2 flaky parse_company chunks raw_results) ∧
   (∀ raw_results,
      pool_run 2 flaky parse_company chunks raw_results →
      length raw_results = length chunks ∧
      ∃ order,
        order ≡ₚ seq 0 (length chunks) ∧
        ∀ t i chunk, order !! t = Some i → chunks !! i = Some chunk →
          ∃ r, raw_results !! i = Some r ∧
            match extraction flaky parse_company t chunk with
            | Ok news => r = news ∧ reaches_context news (make_context raw_results)
            | Err e =>
                r = News_default ∧
                companies r = [] ∧ persons r = [] ∧ events r = [] ∧
                getattr r "failed" = None
            end) ∧
   (∀ p q i chunk r,
      pool_step 2 flaky parse_company chunks p q →
      tasks p !! i = Some Running → tasks q !! i = Some (Finished r) →
      chunks !! i = Some chunk →
      match extraction flaky parse_company (completed p) chunk with
      | Ok news => r = news
      | Err e => r = News_default
      end ∧
      ∀ p' raw_results,
        rtc (pool_step 2 flaky parse_company chunks) q p' →
        gathered p' = Some raw_results →
        raw_results !! i = Some r ∧ reaches_context r (make_context raw_results))) ∧
  (extraction_loop flaky parse_company 1 chunks []
   = omap kept (imap (λ k chunk, extract_from_chunk flaky parse_company chunk (S k))
                     chunks) ∧
   ∀ i chunk news, chunks !! i = Some chunk →
     extract_from_chunk flaky parse_company chunk (S i) = Ok news →
     news ∈ extraction_loop flaky parse_company 1 chunks [] ∧
     contains_data lower_ascii_only
       (merge_news_results lower_ascii_only (extraction_loop flaky parse_company 1 chunks []))
       news).
Proof.
  intros chunks. split; [lia|]. split; [reflexivity|].
  split.
  { split; [|split; reflexivity].
    exact (step_complete 2 flaky parse_company chunks
             (acquire 1 (pool_init chunks)) 1 (of_ascii "b") eq_refl eq_refl). }
  apply (failures_are_isolated lower_ascii_only flaky parse_company 2 flaky parse_company chunks).
  lia.
Defined.

(** C3 as stated fails: the entry left for a failing chunk has no [failed]
    attribute, and the sequential loop leaves no entry at all. *)
Lemma failure_isolation_fails :
  ¬ failure_isolation 1 always_raises parse_company [of_ascii "a"] ∧
  extraction_loop flaky parse_company 1 [of_ascii "a"; of_ascii "b"; of_ascii "c"] []
  = [mkNews [of_ascii "a"] [] []; mkNews [of_ascii "c"] [] []].
Proof.
  split; [|reflexivity].
  intros H.
  destruct (H [News_default]) as [_ Hslot].
  { apply (pool_run_singleton 1 always_raises parse_company (of_ascii "a")). lia. }
  destruct (Hslot 0%nat (of_ascii "a") eq_refl) as (r & Hr & _ & _ & _ & Hfailed).
  { intros t. by exists InvokeError. }
  injection Hr as <-. discriminate Hfailed.
Qed.

End PipelineFacts.

(** ** More on the chunker *)

Module ChunkerMore.
Import Chunked ChunkedFacts Reassembly.

(** Slices with non-negative bounds, as the definition clips them. *)
Lemma slice_clipped {A} (text : list A) a b :
  0 ≤ a → 0 ≤ b →
  slice text a b
  = take (Z.to_nat (Z.min b (len text) - Z.min a (len text)))
         (drop (Z.to_nat (Z.min a (len text))) text).
Proof.
  intros Ha Hb. unfold slice, adjust_index.
  destruct (Z.ltb_spec a 0); [lia|]. destruct (Z.ltb_spec b 0); [lia|]. done.
Qed.

Lemma drop_take_sub {A} (l : list A) k n : drop k (take n l) = take (n - k) (drop k l).
Proof.
  destruct (Nat.le_gt_cases k n) as [Hle|Hgt].
  - rewrite take_drop_commute. do 2 f_equal. lia.
  - replace (n - k)%nat with 0%nat by lia. simpl.
    apply drop_ge. rewrite length_take. lia.
Qed.

(** X1: whenever [overlap < chunk_size] the chunker returns
    [ceil(len(text) / (chunk_size - overlap))] fragments, and fragment [i] is
    [text[i*step : i*step + chunk_size]] for [step = chunk_size - overlap]. *)
Theorem split_closed_form {A} (text : list A) (chunk_size overlap : Z) :
  overlap < chunk_size →
  ∃ chunks,
    split_text_into_chunks (S (length text)) text chunk_size overlap = Returns chunks ∧
    Z.of_nat (length chunks)
      = (len text + (chunk_size - overlap) - 1) / (chunk_size - overlap) ∧
    ∀ i, (i < length chunks)%nat →
      chunks !! i
      = Some (slice text (Z.of_nat i * (chunk_size - overlap))
                         (Z.of_nat i * (chunk_size - overlap) + chunk_size)).
Proof.
  intros Hov. set (step := chunk_size - overlap).
  assert (0 < step) as Hstep by (unfold step; lia).
  pose proof (window_count_le_length text step Hstep) as Hfuel.
  eexists. split; [apply split_texts_closed; [lia|fold step; lia]|].
  fold step. rewrite !length_fmap, length_seq. split.
  - unfold window_count. rewrite Z.sub_0_r, Z2Nat.id; [done|].
    apply Z.div_pos; unfold len; lia.
  - intros i Hi. by apply lookup_windows.
Qed.

Lemma split_closed_form_witness :
  1 < 3 ∧
  ∃ chunks,
    split_text_into_chunks 6 [97; 98; 99; 100; 101]%N 3 1 = Returns chunks ∧
    Z.of_nat (length chunks) = (5 + (3 - 1) - 1) / (3 - 1) ∧
    ∀ i, (i < length chunks)%nat →
      chunks !! i
      = Some (slice [97; 98; 99; 100; 101]%N (Z.of_nat i * (3 - 1))
                    (Z.of_nat i * (3 - 1) + 3)).
Proof.
  split; [lia|]. apply (split_closed_form [97; 98; 99; 100; 101]%N 3 1). lia.
Defined.

(** X2: under a valid configuration fragment [i] has
    [min(chunk_size, len(text) - i*step)] characters: never none, never more
    than [chunk_size]. *)
Theorem split_chunk_lengths {A} (text : list A) (chunk_size overlap : Z) :
  0 < chunk_size → 0 ≤ overlap < chunk_size →
  ∃ chunks,
    split_text_into_chunks (S (length text)) text chunk_size overlap = Returns chunks ∧
    ∀ i c, chunks !! i = Some c →
      len c = Z.min chunk_size (len text - Z.of_nat i * (chunk_size - overlap)) ∧
      0 < len c ≤ chunk_size.
Proof.
  intros Hcs Hov. set (step := chunk_size - overlap).
  assert (0 < step) as Hstep by (unfold step; lia).
  pose proof (window_count_le_length text step Hstep) as Hfuel.
  eexists. split; [apply split_texts_closed; [lia|fold step; lia]|].
  fold step. intros i c [Hi ->]%lookup_windows.
  apply window_count_spec in Hi; [|done]. rewrite Z.add_0_l in Hi.
  rewrite length_slice by lia. lia.
Qed.

Lemma split_chunk_lengths_witness :
  0 < 3 ∧ 0 ≤ 1 < 3 ∧
  ∃ chunks,
    split_text_into_chunks 6 [97; 98; 99; 100; 101]%N 3 1 = Returns chunks ∧
    ∀ i c, chunks !! i = Some c →
      len c = Z.min 3 (5 - Z.of_nat i * (3 - 1)) ∧ 0 < len c ≤ 3.
Proof.
  split; [lia|]. split; [lia|].
  apply (split_chunk_lengths [97; 98; 99; 100; 101]%N 3 1); lia.
Defined.
(** What a later fragment adds: the text between the end of its
    predecessor and its own end. *)
Lemma drop_overlap_slice {A} (text : list A) cs ov a :
  0 ≤ a → 0 ≤ ov < cs →
  drop (Z.to_nat ov) (slice text a (a + cs))
  = take (Z.to_nat (Z.min (a + cs) (len text) - Z.min (a + ov) (len text)))
         (drop (Z.to_nat (Z.min (a + ov) (len text))) text).
Proof.
  intros Ha Hov. rewrite slice_clipped by lia.
  rewrite drop_take_sub, drop_drop.
  destruct (Z.le_gt_cases (a + ov) (len text)) as [Hle|Hgt].
  - f_equal; [lia|f_equal; lia].
  - rewrite !drop_ge by (unfold len in *; lia). by rewrite !take_nil.
Qed.

Lemma reassemble_windows {A} (text : list A) cs ov m :
  0 < cs → 0 ≤ ov < cs →
  slice text 0 cs
  ++ concat ((λ k : nat, drop (Z.to_nat ov)
                           (slice text (Z.of_nat (S k) * (cs - ov))
                                       (Z.of_nat (S k) * (cs - ov) + cs)))
             <$> seq 0 m)
  = take (Z.to_nat (Z.min (Z.of_nat m * (cs - ov) + cs) (len text))) text.
Proof.
  intros Hcs Hov. induction m as [|m IH].
  - simpl. rewrite app_nil_r, slice_clipped by lia.
    rewrite (Z.min_l 0) by (unfold len; lia). simpl. f_equal. lia.
  - rewrite seq_S, fmap_app, concat_app, app_assoc, IH. simpl.
    rewrite app_nil_r.
    assert (0 ≤ Z.of_nat m * (cs - ov)) as Hm by nia.
    rewrite drop_overlap_slice by lia.
    replace (Z.of_nat (S m) * (cs - ov) + ov) with (Z.of_nat m * (cs - ov) + cs) by lia.
    rewrite take_take_drop. f_equal. lia.
Qed.

(** X3: under a valid configuration the text is recovered from the
    fragments: the first fragment followed by every later fragment without
    its first [overlap] characters. *)
Theorem split_reassemble {A} (text : list A) (chunk_size overlap : Z) :
  0 < chunk_size → 0 ≤ overlap < chunk_size →
  ∃ chunks,
    split_text_into_chunks (S (length text)) text chunk_size overlap = Returns chunks ∧
    reassemble overlap chunks = text.
Proof.
  intros Hcs Hov. set (step := chunk_size - overlap).
  assert (0 < step) as Hstep by (unfold step; lia).
  pose proof (window_count_le_length text step Hstep) as Hfuel.
  eexists. split; [apply split_texts_closed; [lia|fold step; lia]|].
  fold step.
  destruct (window_count (len text) 0 step) as [|m] eqn:Hcount.
  - destruct text as [|x text]; [done|].
    assert (0 < window_count (len (x :: text)) 0 step)%nat; [|lia].
    apply window_count_spec; [done|]. unfold len. simpl. lia.
  - assert (m < window_count (len text) 0 step)%nat as Hm by lia.
    apply window_count_spec in Hm; [|done].
    assert (¬ (S m < window_count (len text) 0 step)%nat) as Hlast by lia.
    rewrite window_count_spec in Hlast by done.
    rewrite <- cons_seq, <- fmap_S_seq. simpl.
    rewrite <- !list_fmap_compose.
    rewrite (list_fmap_ext
               (drop (Z.to_nat overlap) ∘ chunk_text ∘ window text chunk_size step 0 0 ∘ S)
               (λ k : nat, drop (Z.to_nat overlap)
                             (slice text (Z.of_nat (S k) * step)
                                         (Z.of_nat (S k) * step + chunk_size)))
               (seq 0 m)).
    + rewrite Z.add_0_l, Z.mul_0_l, Z.add_0_l.
      unfold step. rewrite reassemble_windows by lia.
      apply take_ge. unfold step, len in *. lia.
    + intros _ k _. unfold compose, window. simpl. do 2 f_equal; lia.
Qed.

Lemma split_reassemble_witness :
  0 < 3 ∧ 0 ≤ 1 < 3 ∧
  ∃ chunks,
    split_text_into_chunks 6 [97; 98; 99; 100; 101]%N 3 1 = Returns chunks ∧
    reassemble 1 chunks = [97; 98; 99; 100; 101]%N.
Proof.
  split; [lia|]. split; [lia|].
  apply (split_reassemble [97; 98; 99; 100; 101]%N 3 1); lia.
Defined.

(** X4: the chunker returns exactly when the text is empty or
    [overlap < chunk_size]; otherwise no budget is enough. *)
Theorem split_returns_iff {A} (text : list A) (chunk_size overlap : Z) :
  (∃ fuel chunks, split_text_into_chunks fuel text chunk_size overlap = Returns chunks)
  ↔ text = [] ∨ overlap < chunk_size.
Proof.
  split.
  - intros (fuel & chunks & Hret).
    destruct (decide (overlap < chunk_size)) as [?|Hge]; [by right|left].
    destruct text as [|x text]; [done|].
    rewrite split_invalid_config_diverges in Hret by (done || lia). done.
  - intros [->|Hov].
    + by exists 1%nat, [].
    + eexists (S (length text)), _. apply split_texts_closed; [done|].
      pose proof (window_count_le_length text (chunk_size - overlap)). lia.
Qed.

End ChunkerMore.

(** ** More on the union merge *)

Module MergeMore.
Import Chunked StripFacts MergeFacts MergeRelations.

Section merge.
Variable lower : str → str.

Local Abbreviation key := (normalized_key lower).

Lemma first_occurrences_keys items k :
  k ∈ key <$> first_occurrences lower [] items ↔ k ≠ [] ∧ k ∈ key <$> items.
Proof.
  split.
  - intros (s & -> & Hs)%list_elem_of_fmap.
    apply elem_of_first_occurrences in Hs as (item & Hitem & -> & Hne & _).
    rewrite key_strip. split; [done|]. by apply list_elem_of_fmap_2.
  - intros [Hne (item & -> & Hitem)%list_elem_of_fmap].
    destruct (first_occurrences_complete lower [] items item Hitem Hne) as [H|H]; [|done].
    by apply elem_of_nil in H.
Qed.

Lemma first_occurrences_sublist earlier items :
  first_occurrences lower earlier items `sublist_of` strip <$> items.
Proof.
  revert earlier. induction items as [|x items IH]; intros earlier; simpl.
  - constructor.
  - destruct (truthy _ && _); simpl.
    + apply sublist_skip, IH.
    + apply sublist_cons, IH.
Qed.

(** Only the non-empty keys of the entries met so far matter. *)
Lemma first_occurrences_ext earlier1 earlier2 items :
  (∀ k, k ≠ [] → k ∈ key <$> earlier1 ↔ k ∈ key <$> earlier2) →
  first_occurrences lower earlier1 items = first_occurrences lower earlier2 items.
Proof.
  revert earlier1 earlier2.
  induction items as [|x items IH]; intros earlier1 earlier2 Hext; simpl; [done|].
  f_equal.
  - destruct (truthy (key x)) eqn:Htruthy; simpl; [|done].
    apply truthy_spec in Htruthy.
    by rewrite (bool_decide_ext _ _ (Hext _ Htruthy)).
  - apply IH. intros k Hk. rewrite !fmap_app, !elem_of_app, (Hext k Hk). done.
Qed.

Lemma first_occurrences_app earlier items1 items2 :
  first_occurrences lower earlier (items1 ++ items2)
  = first_occurrences lower earlier items1
    ++ first_occurrences lower (earlier ++ items1) items2.
Proof.
  revert earlier. induction items1 as [|x items1 IH]; intros earlier; simpl.
  - by rewrite app_nil_r.
  - rewrite IH, <- !app_assoc. done.
Qed.

(** Selecting first occurrences twice is selecting them once against both
    histories. *)
Lemma first_occurrences_twice earlier' earlier items :
  first_occurrences lower earlier' (first_occurrences lower earlier items)
  = first_occurrences lower (earlier' ++ earlier) items.
Proof.
  revert earlier' earlier.
  induction items as [|x items IH]; intros earlier' earlier; simpl; [done|].
  destruct (truthy (key x)) eqn:Htruthy; simpl.
  - destruct (decide (key x ∈ key <$> earlier)) as [Hin|Hnotin].
    + rewrite bool_decide_eq_true_2 by done. simpl.
      rewrite bool_decide_eq_true_2 by (rewrite fmap_app, elem_of_app; by right).
      simpl. rewrite IH. by rewrite app_assoc.
    + rewrite bool_decide_eq_false_2 by done. simpl.
      rewrite key_strip, strip_idemp, Htruthy. simpl. f_equal.
      * apply truthy_spec in Htruthy.
        rewrite (bool_decide_ext (key x ∈ key <$> earlier')
                                 (key x ∈ key <$> earlier' ++ earlier)); [done|].
        rewrite fmap_app, elem_of_app. tauto.
      * rewrite IH. apply first_occurrences_ext. intros k _.
        rewrite !fmap_app, !elem_of_app. simpl.
        rewrite !list_elem_of_singleton, key_strip. tauto.
  - rewrite IH. by rewrite app_assoc.
Qed.

Lemma deduplicate_two_level items1 items2 :
  deduplicate lower (deduplicate lower items1 ++ deduplicate lower items2)
  = deduplicate lower (items1 ++ items2).
Proof.
  rewrite !deduplicate_first_occurrences, !first_occurrences_app.
  rewrite first_occurrences_idemp. f_equal. simpl.
  rewrite first_occurrences_twice. apply first_occurrences_ext.
  intros k Hk. rewrite app_nil_r, first_occurrences_keys. tauto.
Qed.

(** X5: in every category the merged list holds exactly the non-empty
    normalized keys of the entries of that category in the results. *)
Theorem merge_news_results_keys results :
  same_keys lower (concat (companies <$> results))
            (companies (merge_news_results lower results)) ∧
  same_keys lower (concat (persons <$> results))
            (persons (merge_news_results lower results)) ∧
  same_keys lower (concat (events <$> results))
            (events (merge_news_results lower results)).
Proof.
  rewrite merge_news_results_unfold. simpl. unfold same_keys.
  rewrite !deduplicate_first_occurrences.
  split; [|split]; intros k; apply first_occurrences_keys.
Qed.

(** X6: in every category the merged list is a selection, in their order,
    of the trimmed entries of the results; it is never longer than its
    input. *)
Theorem merge_news_results_selection results :
  let merged := merge_news_results lower results in
  (selection_of (concat (companies <$> results)) (companies merged) ∧
   selection_of (concat (persons <$> results)) (persons merged) ∧
   selection_of (concat (events <$> results)) (events merged)) ∧
  (length (companies merged) ≤ length (concat (companies <$> results)))%nat ∧
  (length (persons merged) ≤ length (concat (persons <$> results)))%nat ∧
  (length (events merged) ≤ length (concat (events <$> results)))%nat.
Proof.
  intros merged. unfold merged. rewrite merge_news_results_unfold. simpl.
  unfold selection_of. rewrite !deduplicate_first_occurrences.
  pose proof (first_occurrences_sublist [] (concat (companies <$> results))) as Hc.
  pose proof (first_occurrences_sublist [] (concat (persons <$> results))) as Hp.
  pose proof (first_occurrences_sublist [] (concat (events <$> results))) as He.
  repeat split; try done.
  - apply sublist_length in Hc. by rewrite length_fmap in Hc.
  - apply sublist_length in Hp. by rewrite length_fmap in Hp.
  - apply sublist_length in He. by rewrite length_fmap in He.
Qed.

(** X7: merging can be done in two levels: merging the merges of two
    batches of results is merging all the results at once. *)
Theorem merge_news_results_two_level results1 results2 :
  merge_news_results lower
    [merge_news_results lower results1; merge_news_results lower results2]
  = merge_news_results lower (results1 ++ results2).
Proof.
  rewrite (merge_news_results_unfold lower [_; _]). simpl. rewrite !app_nil_r.
  rewrite (merge_news_results_unfold lower results1),
          (merge_news_results_unfold lower results2). simpl.
  rewrite !deduplicate_two_level.
  rewrite (merge_news_results_unfold lower (results1 ++ results2)).
  by rewrite !fmap_app, !concat_app.
Qed.

End merge.
End MergeMore.

(** ** More on the sequential pipeline *)

Module SequentialMore.
Import Chunked ChunkedFacts MergeFacts SequentialFacts Collected.

Section extraction.
Variable lower : str → str.
Context {response : Type}.
Variable chain_invoke : nat → str → result response.
Variable parser_parse : response → result News.

Local Abbreviation extract_from_chunk := (extract_from_chunk chain_invoke parser_parse).
Local Abbreviation extraction_loop := (extraction_loop chain_invoke parser_parse).
Local Abbreviation run_news_extraction :=
  (run_news_extraction lower chain_invoke parser_parse).

Lemma extraction_loop_length_all i chunks :
  (∀ k chunk, chunks !! k = Some chunk →
     ∃ news, extract_from_chunk chunk (i + k) = Ok news) →
  length (extraction_loop i chunks []) = length chunks.
Proof.
  revert i. induction chunks as [|chunk chunks IH]; intros i Hok; simpl; [done|].
  destruct (Hok 0%nat chunk eq_refl) as [news Hnews].
  rewrite Nat.add_0_r in Hnews. rewrite Hnews.
  rewrite extraction_loop_app. simpl. f_equal. apply IH.
  intros k c Hc. destruct (Hok (S k) c Hc) as [n Hn]. exists n.
  by replace (S i + k)%nat with (i + S k)%nat by lia.
Qed.

(** X9: the loop of [run_news_extraction] collects, in fragment order, the
    results of the fragments whose extraction returned, fragment [k]
    (counted from 0) being extracted under the number [k + 1]; when no
    extraction raises there is one result per fragment. *)
Theorem extraction_loop_collects chunks :
  extraction_loop 1 chunks []
  = omap kept (imap (λ k chunk, extract_from_chunk chunk (S k)) chunks) ∧
  ((∀ k chunk, chunks !! k = Some chunk →
      ∃ news, extract_from_chunk chunk (S k) = Ok news) →
   length (extraction_loop 1 chunks []) = length chunks).
Proof.
  split; [apply (extraction_loop_kept chain_invoke parser_parse 1)|].
  intros Hok. by apply extraction_loop_length_all.
Qed.



(** X10: with its default configuration [run_news_extraction] returns for
    every loaded content, whatever the model and the parser do: it cuts the
    content into [ceil(len / 1900)] fragments and returns the merge of what
    the loop collected; an empty content gives the empty [News]. *)
Theorem run_news_extraction_returns content :
  (∃ chunks,
     split_text_into_chunks (S (length content)) content CHUNK_SIZE CHUNK_OVERLAP
       = Returns chunks ∧
     Z.of_nat (length chunks) = (len content + 1899) / 1900 ∧
     run_news_extraction (S (length content)) content
       = Returns (merge_news_results lower (extraction_loop 1 chunks []))) ∧
  run_news_extraction 1 [] = Returns (mkNews [] [] []).
Proof.
  split; [|done].
  pose proof (window_count_le_length content (CHUNK_SIZE - CHUNK_OVERLAP) eq_refl) as Hfuel.
  eexists. split; [apply split_texts_closed; [done|lia]|].
  split.
  - rewrite !length_fmap, length_seq. unfold window_count.
    change (CHUNK_SIZE - CHUNK_OVERLAP) with 1900.
    rewrite Z2Nat.id by (apply Z.div_pos; unfold len; lia).
    f_equal. lia.
  - unfold Chunked.run_news_extraction.
    rewrite split_texts_closed by (done || lia). done.
Qed.


End extraction.

Lemma extraction_loop_collects_witness :
  let chunks := [of_ascii "a"; of_ascii "c"] in
  extraction_loop Doubles.flaky Doubles.parse_company 1 chunks []
  = omap kept (imap (λ k chunk,
       extract_from_chunk Doubles.flaky Doubles.parse_company chunk (S k)) chunks) ∧
  ((∀ k chunk, chunks !! k = Some chunk →
      ∃ news, extract_from_chunk Doubles.flaky Doubles.parse_company chunk (S k)
              = Ok news) →
   length (extraction_loop Doubles.flaky Doubles.parse_company 1 chunks [])
   = length chunks) ∧
  length (extraction_loop Doubles.flaky Doubles.parse_company 1 chunks []) = 2%nat.
Proof.
  intros chunks.
  destruct (extraction_loop_collects Doubles.flaky Doubles.parse_company chunks)
    as [Hkept Hlen].
  split; [done|]. split; [done|]. apply Hlen.
  intros [|[|k]] chunk [= <-]; by eexists.
Defined.


End SequentialMore.

(** ** More on the concurrent pool *)

Module PoolMore.
Import Extractor ExtractorFacts.

Section NewsExtractor.
Context {response : Type}.
Variable MAX_CONCURRENCY : nat.
Variable split_text : str → list str.
Variable chunk_ainvoke : nat → str → result response.
Variable chunk_parser_parse : response → result News.
Variable final_ainvoke : context_data → result response.
Variable final_parser_parse : response → result ConsolidatedNews.t.

Local Abbreviation process_chunk := (process_chunk chunk_ainvoke chunk_parser_parse).
Local Abbreviation pool_step :=
  (pool_step MAX_CONCURRENCY chunk_ainvoke chunk_parser_parse).
Local Abbreviation pool_run :=
  (pool_run MAX_CONCURRENCY chunk_ainvoke chunk_parser_parse).
Local Abbreviation pool_inv :=
  (pool_inv MAX_CONCURRENCY chunk_ainvoke chunk_parser_parse).
Local Abbreviation run :=
  (run MAX_CONCURRENCY split_text chunk_ainvoke chunk_parser_parse
       final_ainvoke final_parser_parse).

(** One step is one acquisition or one completion. *)
Lemma pool_step_counts chunks p q :
  pool_step chunks p q →
  (in_flight q + 2 * finished_count q = S (in_flight p + 2 * finished_count p))%nat ∧
  (completed p ≤ completed q)%nat.
Proof.
  intros [p0 i Hwait Hfree|p0 i chunk Hrun Hchunk]; unfold in_flight, finished_count; simpl.
  - pose proof (length_filter_insert (λ t, is_finished t = true) _ _ _ Running Hwait) as Hf.
    pose proof (length_filter_insert (λ t, is_running t = true) _ _ _ Running Hwait) as Hr.
    simpl in Hf, Hr. lia.
  - set (r0 := Finished (process_chunk (completed p0) chunk i)).
    pose proof (length_filter_insert (λ t, is_finished t = true) _ _ _ r0 Hrun) as Hf.
    pose proof (length_filter_insert (λ t, is_running t = true) _ _ _ r0 Hrun) as Hr.
    simpl in Hf, Hr. lia.
Qed.

Lemma running_finished_le (l : list task) :
  (length (filter (λ t, is_running t = true) l)
   + length (filter (λ t, is_finished t = true) l) ≤ length l)%nat.
Proof.
  induction l as [|t l IH]; simpl; [done|].
  rewrite !filter_cons. destruct t; simpl; repeat case_decide; simpl; try done; lia.
Qed.

(** X12: in every state the event loop can reach, the calls in flight are
    at most [MAX_CONCURRENCY], and the progress count is the number of
    finished tasks, at most the number of chunks; a step never decreases
    it. *)
Theorem pool_bounded_concurrency chunks p :
  rtc (pool_step chunks) (pool_init chunks) p →
  (in_flight p ≤ MAX_CONCURRENCY)%nat ∧
  completed p = finished_count p ∧
  (completed p ≤ length chunks)%nat ∧
  ∀ q, pool_step chunks p q → (completed p ≤ completed q)%nat.
Proof.
  intros (Hlen & Hdone & Hbound & _)%pool_inv_reachable.
  split; [done|]. split; [done|]. split.
  - rewrite Hdone, <- Hlen. apply length_filter.
  - intros q Hstep. by apply pool_step_counts in Hstep as [_ ?].
Qed.

Lemma nsteps_pool_count chunks k p :
  nsteps (pool_step chunks) k (pool_init chunks) p →
  k = (in_flight p + 2 * finished_count p)%nat.
Proof.
  revert p. induction k as [|k IH]; intros p Hsteps.
  - inversion Hsteps; subst. unfold in_flight, finished_count. simpl.
    by rewrite !filter_replicate_Waiting.
  - apply nsteps_inv_r in Hsteps as (q & Hq & Hstep).
    apply IH in Hq. apply pool_step_counts in Hstep as [Hcount _]. lia.
Qed.

(** X13: a run of the event loop that has taken [k] steps has made
    [in_flight + 2 * finished] of them; no run is longer than twice the number
    of chunks, and [gather] returns after exactly that many steps. *)
Theorem pool_run_length chunks k p :
  nsteps (pool_step chunks) k (pool_init chunks) p →
  k = (in_flight p + 2 * finished_count p)%nat ∧
  (k ≤ 2 * length chunks)%nat ∧
  (is_Some (gathered p) → k = (2 * length chunks)%nat).
Proof.
  intros Hsteps. pose proof (nsteps_pool_count _ _ _ Hsteps) as Hk.
  apply rtc_nsteps_2, pool_inv_reachable in Hsteps as (Hlen & _).
  pose proof (running_finished_le (tasks p)) as Hle.
  unfold in_flight, finished_count in *.
  split; [done|]. split; [lia|].
  intros [raw_results Hgather].
  apply gathered_lookup in Hgather as [Hlen' Hfin].
  assert (Forall (λ t, is_finished t = true) (tasks p)) as Hall.
  { apply Forall_lookup. intros i t Hi.
    destruct (lookup_lt_is_Some_2 raw_results i) as [r Hr].
    { rewrite Hlen'. by eapply lookup_lt_Some. }
    apply Hfin in Hr. rewrite Hi in Hr. by injection Hr as ->. }
  assert (filter (λ t, is_finished t = true) (tasks p) = tasks p) as Hff.
  { clear -Hall. induction Hall as [|t l Ht _ IH]; [done|].
    rewrite filter_cons_True by done. by rewrite IH. }
  assert (filter (λ t, is_running t = true) (tasks p) = []) as Hfr.
  { clear -Hall. induction Hall as [|t l Ht _ IH]; [done|].
    rewrite filter_cons_False; [done|]. by destruct t. }
  rewrite Hff, Hfr in Hk. simpl in Hk. lia.
Qed.

(** What the tasks of a pool can look like: all finished, one running, or
    none running and one waiting. *)
Lemma task_cases (l : list task) :
  Forall (λ t, is_finished t = true) l ∨
  (∃ i, l !! i = Some Running) ∨
  ((∃ i, l !! i = Some Waiting) ∧ filter (λ t, is_running t = true) l = []).
Proof.
  induction l as [|t l IH]; [by left|].
  destruct t as [| |r].
  - destruct IH as [Hall|[[i Hi]|[_ Hnone]]].
    + right; right. split; [by exists 0%nat|].
      rewrite filter_cons_False by done.
      clear -Hall. induction Hall as [|t l Ht _ IH]; [done|].
      rewrite filter_cons_False; [done|]. by destruct t.
    + right; left. by exists (S i).
    + right; right. split; [by exists 0%nat|]. by rewrite filter_cons_False.
  - right; left. by exists 0%nat.
  - destruct IH as [Hall|[[i Hi]|[[i Hi] Hnone]]].
    + left. by constructor.
    + right; left. by exists (S i).
    + right; right. split; [by exists (S i)|]. by rewrite filter_cons_False.
Qed.

(** While a task is unfinished and a permit exists, one more task can be
    brought to its end. *)
Lemma pool_progress chunks p :
  (1 ≤ MAX_CONCURRENCY)%nat →
  pool_inv chunks p →
  ¬ Forall (λ t, is_finished t = true) (tasks p) →
  ∃ q, rtc (pool_step chunks) p q ∧ pool_inv chunks q ∧
       finished_count q = S (finished_count p).
Proof.
  intros Hmax Hinv Hnot.
  assert (∀ p' i, pool_inv chunks p' → tasks p' !! i = Some Running →
            ∃ q, pool_step chunks p' q ∧ pool_inv chunks q ∧
                 finished_count q = S (finished_count p')) as Hcomplete.
  { intros p' i Hinv' Hi.
    destruct (lookup_lt_is_Some_2 chunks i) as [chunk Hchunk].
    { destruct Hinv' as [<- _]. by eapply lookup_lt_Some. }
    pose proof (step_complete MAX_CONCURRENCY chunk_ainvoke chunk_parser_parse
                  chunks p' i chunk Hi Hchunk) as Hstep.
    eexists. split; [exact Hstep|]. split; [by eapply pool_inv_step|].
    pose proof (length_filter_insert (λ t, is_finished t = true) _ _ _
                  (Finished (process_chunk (completed p') chunk i)) Hi) as Hf.
    unfold finished_count. simpl in *. lia. }
  destruct (task_cases (tasks p)) as [Hall|[[i Hi]|[[i Hi] Hnone]]]; [done| |].
  - destruct (Hcomplete p i Hinv Hi) as (q & Hstep & Hq & Hcount).
    exists q. split; [by apply rtc_once|done].
  - assert (in_flight p < MAX_CONCURRENCY)%nat as Hfree.
    { unfold in_flight. rewrite Hnone. simpl. lia. }
    pose proof (step_acquire MAX_CONCURRENCY chunk_ainvoke chunk_parser_parse
                  chunks p i Hi Hfree) as Hstep1.
    set (p1 := mkPool (<[i:=Running]> (tasks p)) (completed p)) in *.
    assert (pool_inv chunks p1) as Hinv1 by (by eapply pool_inv_step).
    assert (tasks p1 !! i = Some Running) as Hi1.
    { simpl. apply list_lookup_insert_eq. by eapply lookup_lt_Some. }
    destruct (Hcomplete p1 i Hinv1 Hi1) as (q & Hstep2 & Hq & Hcount).
    exists q. split; [eapply rtc_l; [exact Hstep1|by apply rtc_once]|].
    split; [done|]. rewrite Hcount. f_equal.
    pose proof (length_filter_insert (λ t, is_finished t = true) _ _ _ Running Hi) as Hf.
    unfold finished_count, p1. simpl in *. lia.
Qed.

Lemma pool_can_finish chunks p :
  (1 ≤ MAX_CONCURRENCY)%nat →
  pool_inv chunks p →
  ∃ q raw_results, rtc (pool_step chunks) p q ∧ gathered q = Some raw_results.
Proof.
  intros Hmax.
  remember (length chunks - finished_count p)%nat as d eqn:Hd.
  revert p Hd. induction d as [d IH] using lt_wf_ind. intros p Hd Hinv.
  destruct (decide (Forall (λ t, is_finished t = true) (tasks p))) as [Hall|Hnot].
  - destruct (mapM_is_Some_2 task_result (tasks p)) as [raw_results Hr].
    { eapply Forall_impl; [exact Hall|]. intros [| |r] Ht; try done. by eexists. }
    by exists p, raw_results.
  - destruct (pool_progress chunks p Hmax Hinv Hnot) as (q & Hpq & Hq & Hcount).
    assert (finished_count q ≤ length chunks)%nat as Hle.
    { destruct Hq as [<- _]. apply length_filter. }
    destruct (IH (length chunks - finished_count q)%nat ltac:(lia) q eq_refl Hq)
      as (q' & raw_results & Hqq' & Hgather).
    exists q', raw_results. split; [by etrans|done].
Qed.

(** X14: with at least one permit the event loop cannot get stuck: from
    every state it can reach, [gather] can still return. *)
Theorem pool_never_stuck chunks p :
  (1 ≤ MAX_CONCURRENCY)%nat →
  rtc (pool_step chunks) (pool_init chunks) p →
  ∃ q raw_results,
    rtc (pool_step chunks) p q ∧ gathered q = Some raw_results ∧
    pool_run chunks raw_results.
Proof.
  intros Hmax Hreach.
  destruct (pool_can_finish chunks p Hmax (pool_inv_reachable _ _ _ _ _ Hreach))
    as (q & raw_results & Hpq & Hgather).
  exists q, raw_results. split; [done|]. split; [done|].
  exists q. split; [by etrans|done].
Qed.

Lemma gathered_init chunks raw_results :
  gathered (pool_init chunks) = Some raw_results ↔ chunks = [] ∧ raw_results = [].
Proof.
  unfold gathered. simpl. split.
  - destruct chunks as [|c chunks]; simpl; [by intros [= <-]|done].
  - by intros [-> ->].
Qed.


(** X17: the raw lists handed to the consolidation call hold every entity
    of every result exactly once, compared as written: nothing is trimmed or
    case-folded at this stage. *)
Theorem make_context_exact raw_results :
  let ctx := make_context raw_results in
  (NoDup (raw_companies ctx) ∧ NoDup (raw_persons ctx) ∧ NoDup (raw_events ctx)) ∧
  (∀ item, item ∈ raw_companies ctx ↔ ∃ news, news ∈ raw_results ∧ item ∈ companies news) ∧
  (∀ item, item ∈ raw_persons ctx ↔ ∃ news, news ∈ raw_results ∧ item ∈ persons news) ∧
  (∀ item, item ∈ raw_events ctx ↔ ∃ news, news ∈ raw_results ∧ item ∈ events news).
Proof.
  assert (∀ (f : News → list str) item,
            item ∈ elements (list_to_set (concat (f <$> raw_results)) : gset str) ↔
            ∃ news, news ∈ raw_results ∧ item ∈ f news) as Hmem.
  { intros f item. rewrite elem_of_elements, elem_of_list_to_set, elem_of_concat.
    split.
    - intros (l & Hitem & (news & -> & Hnews)%list_elem_of_fmap). by exists news.
    - intros (news & Hnews & Hitem). exists (f news).
      split; [done|]. by apply list_elem_of_fmap_2. }
  intros ctx. unfold ctx, make_context. simpl.
  split; [repeat split; apply NoDup_elements|].
  split; [|split]; intros item; apply Hmem.
Qed.

End NewsExtractor.

(** X15: without a permit no task ever starts, so [gather] returns only for
    an empty list of chunks; and for an empty list of chunks it returns the
    empty list, whatever the number of permits. *)
Theorem pool_without_permits {response : Type} (max : nat)
    (chunk_ainvoke : nat → str → result response)
    (chunk_parser_parse : response → result News)
    (chunks : list str) (raw_results : list News) :
  (pool_run 0 chunk_ainvoke chunk_parser_parse chunks raw_results
   ↔ chunks = [] ∧ raw_results = []) ∧
  (pool_run max chunk_ainvoke chunk_parser_parse [] raw_results ↔ raw_results = []).
Proof.
  split.
  - split.
    + intros (p & Hreach & Hgather).
      assert (p = pool_init chunks) as ->; [|by apply gathered_init].
      clear Hgather. revert p Hreach. apply rtc_ind_r; [done|].
      intros p q _ Hstep Hp. destruct Hstep as [p i Hwait Hfree|p i chunk Hrun _].
      * lia.
      * rewrite Hp in Hrun. simpl in Hrun.
        by apply lookup_replicate_1 in Hrun as [? _].
    + intros [-> ->]. by exists (pool_init []).
  - split.
    + intros [Hlen _]%pool_run_slots. by destruct raw_results.
    + intros ->. by exists (pool_init []).
Qed.

(** *** Runs of the pool on the stand-ins *)

Lemma reach_second_done :
  rtc (pool_step 2 Doubles.stamp Doubles.parse_company [of_ascii "a"; of_ascii "b"])
      (pool_init [of_ascii "a"; of_ascii "b"])
      (schedule Doubles.stamp Doubles.parse_company [of_ascii "a"; of_ascii "b"] [1%nat]).
Proof.
  apply schedule_reachable; [lia|apply NoDup_singleton|].
  intros i ->%list_elem_of_singleton. simpl. lia.
Qed.

Lemma two_steps_single :
  nsteps (pool_step 1 Doubles.echo Doubles.parse_company [of_ascii "a"]) 2
         (pool_init [of_ascii "a"])
         (schedule Doubles.echo Doubles.parse_company [of_ascii "a"] [0%nat]).
Proof.
  eapply nsteps_l; [|eapply nsteps_l; [|apply nsteps_O]].
  - apply (step_acquire 1 Doubles.echo Doubles.parse_company _ (pool_init [of_ascii "a"]) 0);
      [done|vm_compute; lia].
  - apply (step_complete 1 Doubles.echo Doubles.parse_company [of_ascii "a"]
             (acquire 0 (pool_init [of_ascii "a"])) 0 (of_ascii "a")); done.
Qed.

Lemma pool_bounded_concurrency_witness :
  let chunks := [of_ascii "a"; of_ascii "b"] in
  let p := schedule Doubles.stamp Doubles.parse_company chunks [1%nat] in
  rtc (pool_step 2 Doubles.stamp Doubles.parse_company chunks) (pool_init chunks) p ∧
  (in_flight p ≤ 2)%nat ∧
  completed p = finished_count p ∧
  (completed p ≤ length chunks)%nat ∧
  ∀ q, pool_step 2 Doubles.stamp Doubles.parse_company chunks p q →
       (completed p ≤ completed q)%nat.
Proof.
  intros chunks p. split; [exact reach_second_done|].
  exact (pool_bounded_concurrency 2 Doubles.stamp Doubles.parse_company
           chunks p reach_second_done).
Defined.

Lemma pool_run_length_witness :
  let chunks := [of_ascii "a"] in
  let p := schedule Doubles.echo Doubles.parse_company chunks [0%nat] in
  nsteps (pool_step 1 Doubles.echo Doubles.parse_company chunks) 2 (pool_init chunks) p ∧
  2%nat = (in_flight p + 2 * finished_count p)%nat ∧
  (2 ≤ 2 * length chunks)%nat ∧
  (is_Some (gathered p) → 2%nat = (2 * length chunks)%nat).
Proof.
  intros chunks p. split; [exact two_steps_single|].
  exact (pool_run_length 1 Doubles.echo Doubles.parse_company chunks 2 p two_steps_single).
Defined.

Lemma pool_never_stuck_witness :
  let chunks := [of_ascii "a"; of_ascii "b"] in
  let p := schedule Doubles.stamp Doubles.parse_company chunks [1%nat] in
  (1 ≤ 2)%nat ∧
  rtc (pool_step 2 Doubles.stamp Doubles.parse_company chunks) (pool_init chunks) p ∧
  ∃ q raw_results,
    rtc (pool_step 2 Doubles.stamp Doubles.parse_company chunks) p q ∧
    gathered q = Some raw_results ∧
    pool_run 2 Doubles.stamp Doubles.parse_company chunks raw_results.
Proof.
  intros chunks p. split; [lia|]. split; [exact reach_second_done|].
  apply (pool_never_stuck 2 Doubles.stamp Doubles.parse_company chunks p);
    [lia|exact reach_second_done].
Defined.


End PoolMore.

(** ** The response parser of [src/news_extraction_playwright.py] *)

Module PlaywrightFacts.
Import Playwright StripFacts.

Example parse_personas :
  parse_news_response lower_ascii_only (λ _, None) (λ _, [])
    (ODict [(of_ascii "Personas", OList [OStr (of_ascii " Ana "); OScalar (of_ascii "5"); ONone]);
            (of_ascii "other", OStr (of_ascii "x"));
            (of_ascii "EVENTS", OStr (of_ascii "  "))])
  = Return (mkNews [] [of_ascii "Ana"; of_ascii "5"; of_ascii "None"] []).
Proof. vm_compute. reflexivity. Qed.

Section parse.
Variable lower : str → str.
Variable json_loads : str → option pyobj.
Variable container_str : pyobj → str.

Local Abbreviation py_str := (py_str container_str).
Local Abbreviation _coerce_list := (_coerce_list container_str).
Local Abbreviation lowered := (lowered lower).
Local Abbreviation parse_news_response :=
  (parse_news_response lower json_loads container_str).

Lemma elem_of_kept_entries (items : list pyobj) e :
  e ∈ omap (λ item, if truthy (strip (py_str item))
                    then Some (strip (py_str item)) else None) items →
  ∃ item, item ∈ items ∧ e = strip (py_str item) ∧ e ≠ [].
Proof.
  intros (item & Hitem & He)%list_elem_of_omap.
  destruct (truthy (strip (py_str item))) eqn:Ht; [|done].
  injection He as <-. exists item. split; [done|]. split; [done|].
  by apply MergeFacts.truthy_spec.
Qed.

Lemma _coerce_list_stripped value e :
  e ∈ _coerce_list value → ∃ s, e = strip s.
Proof.
  destruct value as [|s|items|items|text]; simpl.
  - by intros ?%elem_of_nil.
  - destruct (truthy (strip s)); [|by intros ?%elem_of_nil].
    intros ->%list_elem_of_singleton. by eexists.
  - intros (item & _ & -> & _)%elem_of_kept_entries. by eexists.
  - intros ->%list_elem_of_singleton. by eexists.
  - intros ->%list_elem_of_singleton. by eexists.
Qed.

Lemma _coerce_list_nonempty value e :
  listlike value → e ∈ _coerce_list value → e ≠ [].
Proof.
  destruct value as [|s|items|items|text]; simpl; try done.
  - intros _ H. by apply elem_of_nil in H.
  - intros _. destruct (truthy (strip s)) eqn:Ht; [|by intros ?%elem_of_nil].
    intros ->%list_elem_of_singleton. by apply MergeFacts.truthy_spec.
  - by intros _ (item & _ & _ & Hne)%elem_of_kept_entries.
Qed.

(** X18: every entry [_coerce_list] returns is trimmed; for [None], a
    string or a list, no entry is empty either. *)
Theorem _coerce_list_clean value :
  (∀ e, e ∈ _coerce_list value →
     strip e = e ∧
     (∀ c, head e = Some c → isspace c = false) ∧
     (∀ c, last e = Some c → isspace c = false)) ∧
  (listlike value → ∀ e, e ∈ _coerce_list value → e ≠ []).
Proof.
  split.
  - intros e He. apply _coerce_list_stripped in He as [s ->].
    split; [apply strip_idemp|]. split; [apply head_strip|apply last_strip].
  - intros Hlist e. by apply _coerce_list_nonempty.
Qed.

Lemma kept_entries_id (entries : list str) :
  (∀ e, e ∈ entries → strip e = e ∧ e ≠ []) →
  omap (λ item, if truthy (strip (py_str item))
                then Some (strip (py_str item)) else None) (OStr <$> entries)
  = entries.
Proof.
  induction entries as [|e entries IH]; intros Hall; simpl; [done|].
  destruct (Hall e) as [-> Hne]; [by left|].
  apply MergeFacts.truthy_spec in Hne. rewrite Hne. f_equal.
  apply IH. intros e' He'. apply Hall. by right.
Qed.

(** X19: coercing again the list [_coerce_list] made of [None], a string
    or a list changes nothing. *)
Theorem _coerce_list_idempotent value :
  listlike value →
  _coerce_list (OList (OStr <$> _coerce_list value)) = _coerce_list value.
Proof.
  intros Hlist. apply kept_entries_id. intros e He.
  split; [|by eapply _coerce_list_nonempty].
  apply _coerce_list_stripped in He as [s ->]. apply strip_idemp.
Qed.

Local Abbreviation record_key :=
  (λ (m : gmap str str) (kv : str * pyobj), <[lower (fst kv) := fst kv]> m).

Lemma lowered_dict (items : list (str * pyobj)) acc :
  lowered (OStr ∘ fst <$> items) acc = Return (foldl record_key acc items).
Proof.
  revert acc. induction items as [|kv items IH]; intros acc; simpl; [done|]. apply IH.
Qed.

Lemma lookup_lowered_absent (items : list (str * pyobj)) acc a :
  a ∉ lower ∘ fst <$> items →
  foldl record_key acc items !! a = acc !! a.
Proof.
  revert acc. induction items as [|kv items IH]; intros acc Ha; simpl; [done|].
  rewrite fmap_cons, not_elem_of_cons in Ha. destruct Ha as [Hne Ha].
  rewrite IH by done. by rewrite lookup_insert_ne.
Qed.

Lemma lookup_lowered_present (items : list (str * pyobj)) acc key value :
  NoDup (lower ∘ fst <$> items) →
  (key, value) ∈ items →
  foldl record_key acc items !! lower key = Some key.
Proof.
  revert acc. induction items as [|kv items IH]; intros acc Hnodup Hin.
  - by apply elem_of_nil in Hin.
  - rewrite fmap_cons in Hnodup. apply NoDup_cons in Hnodup as [Hfresh Hnodup].
    simpl. apply elem_of_cons in Hin as [<-|Hin].
    + rewrite lookup_lowered_absent by done. simpl. apply lookup_insert_eq.
    + by apply IH.
Qed.

Lemma select_key_found (m : gmap str str) before alias after key :
  (∀ a, a ∈ before → m !! a = None) →
  m !! alias = Some key →
  select_key m (before ++ alias :: after) = Some key.
Proof.
  intros Hbefore Halias. induction before as [|a before IH]; simpl.
  - by rewrite Halias.
  - rewrite (Hbefore a) by by left. apply IH. intros a' Ha'. apply Hbefore. by right.
Qed.

Lemma select_key_none (m : gmap str str) keys :
  (∀ a, a ∈ keys → m !! a = None) → select_key m keys = None.
Proof.
  induction keys as [|a keys IH]; intros Hnone; simpl; [done|].
  rewrite (Hnone a) by by left. apply IH. intros a' Ha'. apply Hnone. by right.
Qed.

Lemma dict_get_elem (items : list (str * pyobj)) key value default :
  NoDup (fst <$> items) → (key, value) ∈ items →
  dict_get key items default = value.
Proof.
  intros Hnodup Hin. unfold dict_get.
  induction items as [|[k v] items IH]; [by apply elem_of_nil in Hin|].
  rewrite fmap_cons in Hnodup. apply NoDup_cons in Hnodup as [Hfresh Hnodup].
  apply elem_of_cons in Hin as [[= <- <-]|Hin].
  - simpl. by rewrite decide_True.
  - simpl. rewrite decide_False.
    + specialize (IH Hnodup Hin).
      destruct (list_find _ items) as [[i [k' v']]|]; simpl in *; done.
    + simpl. intros ->. apply Hfresh. by apply (list_elem_of_fmap_2 fst _ (key, value)).
Qed.

(** On a dictionary every field is the coercion of some value. *)
Lemma normalized_field_dict (items : list (str * pyobj)) (m : gmap str str) (f : field) :
  ∃ value, normalized_field container_str (ODict items) m f = Return (_coerce_list value).
Proof.
  unfold normalized_field, selected_value.
  destruct (select_key m (aliases f)) as [key|].
  - destruct (truthy key).
    + by exists (dict_get key items (OList [])).
    + by exists (OList []).
  - by exists (OList []).
Qed.

Lemma parse_dict (items : list (str * pyobj)) :
  parse_news_response (ODict items)
  = (persons ←ₐ normalized_field container_str (ODict items) (foldl record_key ∅ items) persons_field;
     companies ←ₐ normalized_field container_str (ODict items) (foldl record_key ∅ items) companies_field;
     events ←ₐ normalized_field container_str (ODict items) (foldl record_key ∅ items) events_field;
     Return (mkNews companies persons events)).
Proof. unfold Playwright.parse_news_response. simpl. by rewrite lowered_dict. Qed.

(** X20: [parse_news_response] never raises on a JSON text that
    [json.loads] reads as an object, whose keys are strings: it returns a
    [News], every entry of which is trimmed. *)
Theorem parse_news_response_json_object (s : str) (items : list (str * pyobj)) :
  json_loads s = Some (ODict items) →
  ∃ news,
    parse_news_response (OStr s) = Return news ∧
    (∀ f e, e ∈ get_field f news → strip e = e).
Proof.
  intros Hs.
  destruct (normalized_field_dict items (foldl record_key ∅ items) persons_field) as [vp Hp].
  destruct (normalized_field_dict items (foldl record_key ∅ items) companies_field) as [vc Hc].
  destruct (normalized_field_dict items (foldl record_key ∅ items) events_field) as [ve He].
  assert (parse_news_response (ODict items)
          = Return (mkNews (_coerce_list vc) (_coerce_list vp) (_coerce_list ve))) as Hparse.
  { rewrite parse_dict, Hp. simpl. rewrite Hc. simpl. by rewrite He. }
  eexists. split.
  - rewrite <- Hparse. unfold Playwright.parse_news_response. simpl. by rewrite Hs.
  - intros f e Hin.
    assert (∃ value, e ∈ _coerce_list value) as [value Hvalue]
      by (destruct f; simpl in Hin; eauto).
    apply _coerce_list_stripped in Hvalue as [s' ->]. apply strip_idemp.
Qed.

(** X21: keys that are no alias of a field are ignored: a dictionary
    without any recognised key gives the [News] with three empty lists, not
    an error. *)
Theorem parse_news_response_unknown_keys (items : list (str * pyobj)) :
  (∀ f key, key ∈ fst <$> items → lower key ∉ aliases f) →
  parse_news_response (ODict items) = Return (mkNews [] [] []).
Proof.
  intros Hunknown.
  assert (∀ f, normalized_field container_str (ODict items) (foldl record_key ∅ items) f
               = Return []) as Hfield.
  { intros f. unfold normalized_field. rewrite select_key_none; [done|].
    intros a Ha. rewrite lookup_lowered_absent; [done|].
    intros (kv & -> & Hkv)%list_elem_of_fmap. simpl in Ha.
    apply (Hunknown f (fst kv)); [by apply list_elem_of_fmap_2|done]. }
  rewrite parse_dict, !Hfield. done.
Qed.

Lemma aliases_nonempty f : [] ∉ aliases f.
Proof.
  destruct f; unfold aliases; rewrite !not_elem_of_cons;
    repeat split; try (by vm_compute); apply not_elem_of_nil.
Qed.

(** X22: a field is found under any of its aliases, whatever the case of
    the key: when no two keys have the same lowered form, a key whose
    lowered form is an alias of the field, no earlier alias of that field
    being present, gives the field the coercion of its value. *)
Theorem parse_news_response_alias (items : list (str * pyobj)) (f : field)
    (before : list str) (alias : str) (after : list str) (key : str) (value : pyobj) :
  lower [] = [] →
  NoDup (lower ∘ fst <$> items) →
  aliases f = before ++ alias :: after →
  (∀ a, a ∈ before → a ∉ lower ∘ fst <$> items) →
  (key, value) ∈ items →
  lower key = alias →
  ∃ news,
    parse_news_response (ODict items) = Return news ∧
    get_field f news = _coerce_list value.
Proof.
  intros Hnil Hnodup Haliases Hbefore Hin Hkey.
  assert (truthy key = true) as Htruthy.
  { apply MergeFacts.truthy_spec. intros ->.
    apply (aliases_nonempty f). rewrite Haliases, <- Hkey, Hnil.
    rewrite elem_of_app, elem_of_cons. auto. }
  assert (NoDup (fst <$> items)) as Hkeys.
  { rewrite list_fmap_compose in Hnodup. by apply NoDup_fmap_1 in Hnodup. }
  assert (normalized_field container_str (ODict items) (foldl record_key ∅ items) f
          = Return (_coerce_list value)) as Hfield.
  { unfold normalized_field. rewrite Haliases.
    rewrite (select_key_found _ before alias after key).
    - simpl. rewrite Htruthy. simpl. by rewrite (dict_get_elem items key value).
    - intros a Ha. rewrite lookup_lowered_absent by auto. done.
    - rewrite <- Hkey. by eapply lookup_lowered_present. }
  destruct (normalized_field_dict items (foldl record_key ∅ items) persons_field) as [vp Hp].
  destruct (normalized_field_dict items (foldl record_key ∅ items) companies_field) as [vc Hc].
  destruct (normalized_field_dict items (foldl record_key ∅ items) events_field) as [ve He].
  exists (mkNews (_coerce_list vc) (_coerce_list vp) (_coerce_list ve)). split.
  - rewrite parse_dict, Hp. simpl. rewrite Hc. simpl. by rewrite He.
  - destruct f; simpl; congruence.
Qed.

Lemma lowered_not_str keys acc :
  Exists (λ item, is_str item = false) keys →
  lowered keys acc = Raise AttributeError.
Proof.
  intros Hex. revert acc. induction Hex as [item keys Hitem|item keys _ IH]; intros acc.
  - by destruct item.
  - destruct item; simpl; done.
Qed.

Lemma lowered_names (names : list str) acc :
  lowered (OStr <$> names) acc
  = Return (foldl (λ m name, <[lower name := name]> m) acc names).
Proof.
  revert acc. induction names as [|name names IH]; intros acc; simpl; [done|]. apply IH.
Qed.

Lemma lookup_lowered_names_absent (names : list str) (acc : gmap str str) a :
  a ∉ lower <$> names →
  foldl (λ m name, <[lower name := name]> m) acc names !! a = acc !! a.
Proof.
  revert acc. induction names as [|name names IH]; intros acc Ha; simpl; [done|].
  rewrite fmap_cons, not_elem_of_cons in Ha. destruct Ha as [Hne Ha].
  rewrite IH by done. by rewrite lookup_insert_ne.
Qed.

(** X23: what [parse_news_response] raises. A text that is not JSON, and a
    content that is neither a string nor a dictionary, raise the [ValueError]
    of the function itself; a JSON [null], number or boolean raises
    [TypeError] and a JSON array with an item that is not a string raises
    [AttributeError]; a JSON array of strings none of which names a field
    raises nothing and gives the empty [News]. *)
Theorem parse_news_response_errors :
  (∀ s, json_loads s = None → parse_news_response (OStr s) = Raise ValueError) ∧
  (parse_news_response ONone = Raise ValueError ∧
   (∀ items, parse_news_response (OList items) = Raise ValueError) ∧
   (∀ text, parse_news_response (OScalar text) = Raise ValueError)) ∧
  (∀ s, json_loads s = Some ONone → parse_news_response (OStr s) = Raise TypeError) ∧
  (∀ s text, json_loads s = Some (OScalar text) →
             parse_news_response (OStr s) = Raise TypeError) ∧
  (∀ s items, json_loads s = Some (OList items) →
     Exists (λ item, is_str item = false) items →
     parse_news_response (OStr s) = Raise AttributeError) ∧
  (∀ s names, json_loads s = Some (OList (OStr <$> names)) →
     (∀ f name, name ∈ names → lower name ∉ aliases f) →
     parse_news_response (OStr s) = Return (mkNews [] [] [])).
Proof.
  unfold Playwright.parse_news_response.
  split; [by intros s Hs; simpl; rewrite Hs|].
  split; [done|].
  split; [by intros s Hs; simpl; rewrite Hs|].
  split; [by intros s text Hs; simpl; rewrite Hs|].
  split.
  - intros s items Hs Hex. simpl. rewrite Hs. simpl.
    by rewrite lowered_not_str.
  - intros s names Hs Hunknown. simpl. rewrite Hs. simpl.
    rewrite lowered_names. simpl.
    assert (∀ f, normalized_field container_str (OList (OStr <$> names))
                   (foldl (λ m name, <[lower name := name]> m) ∅ names) f
                 = Return []) as Hfield.
    { intros f. unfold normalized_field. rewrite select_key_none; [done|].
      intros a Ha. rewrite lookup_lowered_names_absent; [done|].
      intros (name & -> & Hname)%list_elem_of_fmap. by apply (Hunknown f name). }
    by rewrite !Hfield.
Qed.

End parse.

Lemma _coerce_list_clean_witness :
  let value := OList [OStr (of_ascii " Ana "); ONone; OStr (of_ascii "  ")] in
  listlike value ∧
  _coerce_list (λ _, []) value = [of_ascii "Ana"; of_ascii "None"] ∧
  (∀ e, e ∈ _coerce_list (λ _, []) value →
     strip e = e ∧
     (∀ c, head e = Some c → isspace c = false) ∧
     (∀ c, last e = Some c → isspace c = false)) ∧
  (∀ e, e ∈ _coerce_list (λ _, []) value → e ≠ []).
Proof.
  intros value. split; [exact I|]. split; [vm_compute; reflexivity|].
  destruct (_coerce_list_clean (λ _, []) value) as [Hstrip Hne].
  split; [exact Hstrip|exact (Hne I)].
Defined.

Lemma parse_news_response_json_object_witness :
  let items := [(of_ascii "Personas", OList [OStr (of_ascii " Ana ")])] in
  ToolDoubles.reads_persons_json ToolDoubles.persons_json = Some (ODict items) ∧
  parse_news_response lower_ascii_only ToolDoubles.reads_persons_json (λ _, [])
    (OStr ToolDoubles.persons_json)
  = Return (mkNews [] [of_ascii "Ana"] []) ∧
  ∃ news,
    parse_news_response lower_ascii_only ToolDoubles.reads_persons_json (λ _, [])
      (OStr ToolDoubles.persons_json) = Return news ∧
    (∀ f e, e ∈ get_field f news → strip e = e).
Proof.
  intros items. split; [reflexivity|]. split; [vm_compute; reflexivity|].
  exact (parse_news_response_json_object lower_ascii_only ToolDoubles.reads_persons_json
           (λ _, []) ToolDoubles.persons_json items eq_refl).
Defined.

Lemma parse_news_response_unknown_keys_witness :
  let items := [(of_ascii "Title", OStr (of_ascii "x")); (of_ascii "date", ONone)] in
  (∀ f key, key ∈ fst <$> items → lower_ascii_only key ∉ aliases f) ∧
  parse_news_response lower_ascii_only (λ _, None) (λ _, []) (ODict items)
  = Return (mkNews [] [] []).
Proof.
  intros items.
  assert (∀ f key, key ∈ fst <$> items → lower_ascii_only key ∉ aliases f) as H.
  { intros f key Hkey. simpl in Hkey.
    apply elem_of_cons in Hkey as [->|Hkey];
      [|apply list_elem_of_singleton in Hkey as ->];
      destruct f; unfold aliases; rewrite !not_elem_of_cons;
      repeat split; try (by vm_compute); apply not_elem_of_nil. }
  split; [exact H|].
  exact (parse_news_response_unknown_keys lower_ascii_only (λ _, None) (λ _, []) items H).
Defined.

Lemma parse_news_response_alias_witness :
  let items := [(of_ascii "Title", OStr (of_ascii "x"));
                (of_ascii "PERSONAS", OList [OStr (of_ascii " Ana ")])] in
  lower_ascii_only [] = [] ∧
  NoDup (lower_ascii_only ∘ fst <$> items) ∧
  aliases persons_field
  = [of_ascii "persons"] ++ of_ascii "personas" :: [of_ascii "people"; of_ascii "individuos"] ∧
  (∀ a, a ∈ [of_ascii "persons"] → a ∉ lower_ascii_only ∘ fst <$> items) ∧
  (of_ascii "PERSONAS", OList [OStr (of_ascii " Ana ")]) ∈ items ∧
  lower_ascii_only (of_ascii "PERSONAS") = of_ascii "personas" ∧
  ∃ news,
    parse_news_response lower_ascii_only (λ _, None) (λ _, []) (ODict items) = Return news ∧
    get_field persons_field news
    = _coerce_list (λ _, []) (OList [OStr (of_ascii " Ana ")]).
Proof.
  intros items.
  assert (NoDup (lower_ascii_only ∘ fst <$> items)) as Hnodup.
  { apply (bool_decide_unpack _). vm_compute. reflexivity. }
  assert (∀ a, a ∈ [of_ascii "persons"] → a ∉ lower_ascii_only ∘ fst <$> items) as Hbefore.
  { intros a ->%list_elem_of_singleton. apply (bool_decide_unpack _). vm_compute. reflexivity. }
  assert ((of_ascii "PERSONAS", OList [OStr (of_ascii " Ana ")]) ∈ items) as Hin.
  { right. left. }
  split; [reflexivity|]. split; [exact Hnodup|]. split; [reflexivity|].
  split; [exact Hbefore|]. split; [exact Hin|]. split; [reflexivity|].
  exact (parse_news_response_alias lower_ascii_only (λ _, None) (λ _, []) items
           persons_field [of_ascii "persons"] (of_ascii "personas")
           [of_ascii "people"; of_ascii "individuos"] (of_ascii "PERSONAS")
           (OList [OStr (of_ascii " Ana ")])
           eq_refl Hnodup eq_refl Hbefore Hin eq_refl).
Defined.

Lemma _coerce_list_idempotent_witness :
  let value := OList [OStr (of_ascii " Ana "); ONone; OStr (of_ascii "  "); OScalar (of_ascii "7")] in
  listlike value ∧
  _coerce_list (λ _, []) value = [of_ascii "Ana"; of_ascii "None"; of_ascii "7"] ∧
  _coerce_list (λ _, []) (OList (OStr <$> _coerce_list (λ _, []) value))
  = _coerce_list (λ _, []) value.
Proof.
  intros value. split; [exact I|]. split; [vm_compute; reflexivity|].
  exact (_coerce_list_idempotent (λ _, []) value I).
Defined.

End PlaywrightFacts.

(** ** Cleaning and truncating the page text *)

Module CleaningFacts.
Import Playwright StripFacts ChunkedFacts.

Lemma split_on_cons sep (text : str) : ∃ line lines, split_on sep text = line :: lines.
Proof.
  induction text as [|c text (line & lines & IH)]; simpl; [by eexists _, _|].
  destruct (c =? sep)%N; [by eexists _, _|]. rewrite IH. by eexists _, _.
Qed.

Lemma split_on_no_sep sep (line : str) : sep ∉ line → split_on sep line = [line].
Proof.
  induction line as [|c line IH]; intros Hsep; simpl; [done|].
  apply not_elem_of_cons in Hsep as [Hne Hsep].
  destruct (N.eqb_spec c sep) as [->|_]; [done|]. by rewrite IH.
Qed.

Lemma split_on_app sep (line rest : str) :
  sep ∉ line → split_on sep (line ++ sep :: rest) = line :: split_on sep rest.
Proof.
  induction line as [|c line IH]; intros Hsep; simpl.
  - by rewrite N.eqb_refl.
  - apply not_elem_of_cons in Hsep as [Hne Hsep].
    destruct (N.eqb_spec c sep) as [->|_]; [done|]. by rewrite IH.
Qed.

Lemma split_on_join sep (lines : list str) :
  lines ≠ [] → Forall (λ line, sep ∉ line) lines →
  split_on sep (join [sep] lines) = lines.
Proof.
  intros Hne Hall. induction Hall as [|line lines Hline Hall IH]; [done|].
  destruct lines as [|line' lines]; simpl.
  - by apply split_on_no_sep.
  - rewrite split_on_app by done. f_equal. by apply IH.
Qed.

Lemma split_on_lines sep (text : str) :
  Forall (λ line, sep ∉ line) (split_on sep text).
Proof.
  induction text as [|c text IH]; simpl.
  - repeat constructor. apply not_elem_of_nil.
  - destruct (N.eqb_spec c sep) as [->|Hne].
    + constructor; [apply not_elem_of_nil|done].
    + destruct (split_on sep text) as [|line lines].
      { repeat constructor. rewrite list_elem_of_singleton. congruence. }
      apply Forall_cons in IH as [Hline Hlines]. constructor; [|done].
      apply not_elem_of_cons. auto.
Qed.

Lemma elem_of_lstrip c (s : str) : c ∈ lstrip s → c ∈ s.
Proof.
  induction s as [|x s IH]; simpl; [done|].
  destruct (isspace x); [|done]. intros H. right. by apply IH.
Qed.

Lemma elem_of_strip c (s : str) : c ∈ strip s → c ∈ s.
Proof.
  unfold strip, rstrip. rewrite elem_of_reverse. intros H%elem_of_lstrip.
  rewrite elem_of_reverse in H. by apply elem_of_lstrip.
Qed.

Local Abbreviation keep_line :=
  (λ line : str, if truthy (strip line) then Some (strip line) else None).

(** The lines kept by the comprehension: trimmed, not empty, without a
    newline. *)
Lemma kept_lines_clean (text : str) :
  Forall (λ line, strip line = line ∧ line ≠ [] ∧ newline ∉ line)
         (omap keep_line (split_on newline text)).
Proof.
  apply Forall_forall. intros l (line & Hline & Hkeep)%list_elem_of_omap.
  destruct (truthy (strip line)) eqn:Ht; [|done]. injection Hkeep as <-.
  split; [apply strip_idemp|]. split; [by apply MergeFacts.truthy_spec|].
  intros Hin%elem_of_strip.
  pose proof (split_on_lines newline text) as Hall.
  rewrite Forall_forall in Hall. by apply (Hall line).
Qed.

Lemma keep_clean_lines (lines : list str) :
  Forall (λ line, strip line = line ∧ line ≠ [] ∧ newline ∉ line) lines →
  omap keep_line lines = lines.
Proof.
  induction 1 as [|line lines (Hstrip & Hne & _) _ IH]; simpl; [done|].
  rewrite Hstrip. apply MergeFacts.truthy_spec in Hne. rewrite Hne. by f_equal.
Qed.

(** X24: the cleaning step of [fetch_url_content] leaves a text whose lines
    are all trimmed and not empty (no blank line, no newline at either end),
    and cleaning a cleaned text changes nothing. *)
Theorem clean_lines_idempotent (text : str) :
  clean_lines (clean_lines text) = clean_lines text ∧
  (clean_lines text ≠ [] →
   ∀ line, line ∈ split_on newline (clean_lines text) →
     line ≠ [] ∧ strip line = line).
Proof.
  unfold clean_lines.
  pose proof (kept_lines_clean text) as Hclean.
  destruct (omap keep_line (split_on newline text)) as [|l ls] eqn:Hkept.
  - split; [done|]. by intros [].
  - assert (split_on newline (join [newline] (l :: ls)) = l :: ls) as Hsplit.
    { apply split_on_join; [done|]. eapply Forall_impl; [exact Hclean|]. by intros ? (_ & _ & ?). }
    rewrite Hsplit. split.
    + by rewrite keep_clean_lines.
    + intros _ line Hline. rewrite Forall_forall in Hclean.
      destruct (Hclean line Hline) as (? & ? & _). done.
Qed.

Lemma truncate_length max suffix (text : str) :
  0 ≤ max → len (truncate max suffix text) ≤ max + len suffix.
Proof.
  intros Hmax. unfold truncate.
  destruct (Z.gtb_spec (len text) max) as [Hgt|Hle].
  - unfold len in *. rewrite length_app, slice_take_drop by lia.
    rewrite length_take, length_drop. lia.
  - unfold len in *. lia.
Qed.

(** X25: [fetch_url_content] never returns more than 50 025 characters: a
    cleaned text of at most 50 000 characters is returned as it is, a longer
    one is cut to its first 50 000 characters followed by the notice. *)
Theorem clean_text_bound (text : str) :
  len (clean_text text) ≤ 50025 ∧
  (len (clean_lines text) ≤ 50000 → clean_text text = clean_lines text) ∧
  (50000 < len (clean_lines text) →
   clean_text text
   = take (Z.to_nat 50000) (clean_lines text)
     ++ [newline; newline] ++ of_ascii "[Contenido truncado...]").
Proof.
  unfold clean_text. split; [|split].
  - pose proof (truncate_length max_chars
                  ([newline; newline] ++ of_ascii "[Contenido truncado...]")
                  (clean_lines text) ltac:(done)) as H.
    change (len ([newline; newline] ++ of_ascii "[Contenido truncado...]")) with 25 in H.
    unfold max_chars in *. lia.
  - intros Hle. unfold truncate, max_chars.
    destruct (Z.gtb_spec (len (clean_lines text)) 50000); [lia|done].
  - intros Hgt. unfold truncate, max_chars.
    destruct (Z.gtb_spec (len (clean_lines text)) 50000); [|lia].
    rewrite slice_take_drop by lia.
    change (Z.to_nat 0) with 0%nat. by rewrite drop_0, Z.sub_0_r.
Qed.

End CleaningFacts.

(** ** The single-call pipeline of [src/test/langchain_news.py] *)

Module LangchainFacts.
Import Playwright Langchain ChunkedFacts CleaningFacts.

Section run.
Context {response : Type}.
Variable chain_invoke : str → result response.
Variable parser_parse : response → result News.

Local Abbreviation run_news_extraction :=
  (run_news_extraction chain_invoke parser_parse).

(** X26: the single-call pipeline gives the model at most 50 024
    characters and ignores whatever follows the first 50 000 characters of a
    longer page; a [News] it returns was always parsed from the answer of the
    model: an answer that does not parse raises [ValueError] instead of giving
    an empty result. *)
Theorem run_news_extraction_single_call :
  (∀ content, len (prompt_content content) ≤ 50024) ∧
  (∀ content1 content2,
     50000 < len content1 → 50000 < len content2 →
     take (Z.to_nat 50000) content1 = take (Z.to_nat 50000) content2 →
     run_news_extraction content1 = run_news_extraction content2) ∧
  (∀ content news,
     run_news_extraction content = Extracted news ↔
     ∃ answer, chain_invoke (prompt_content content) = Ok answer ∧
               parser_parse answer = Ok news) ∧
  (∀ content,
     run_news_extraction content = RaisedValueError ↔
     ∃ answer e, chain_invoke (prompt_content content) = Ok answer ∧
                 parser_parse answer = Err e).
Proof.
  split; [|split; [|split]].
  - intros content. unfold prompt_content.
    pose proof (truncate_length 50000 (newline :: of_ascii "[Contenido truncado...]")
                  content ltac:(done)) as H.
    change (len (newline :: of_ascii "[Contenido truncado...]")) with 24 in H. lia.
  - intros content1 content2 H1 H2 Htake.
    assert (prompt_content content1 = prompt_content content2) as Hprompt.
    { unfold prompt_content, truncate.
      destruct (Z.gtb_spec (len content1) 50000); [|lia].
      destruct (Z.gtb_spec (len content2) 50000); [|lia].
      rewrite !slice_take_drop by lia.
      change (Z.to_nat 0) with 0%nat. rewrite !drop_0, Z.sub_0_r. by rewrite Htake. }
    unfold Langchain.run_news_extraction. by rewrite Hprompt.
  - intros content news. unfold Langchain.run_news_extraction.
    destruct (chain_invoke (prompt_content content)) as [answer|e]; simpl.
    + destruct (parser_parse answer) as [news'|e] eqn:Hparse.
      * split; [intros [= ->]; by exists answer|].
        intros (a & [= <-] & Ha). congruence.
      * split; [done|]. intros (a & [= <-] & Ha). congruence.
    + split; [done|]. by intros (a & ? & _).
  - intros content. unfold Langchain.run_news_extraction.
    destruct (chain_invoke (prompt_content content)) as [answer|e]; simpl.
    + destruct (parser_parse answer) as [news'|e] eqn:Hparse.
      * split; [done|]. intros (a & e & [= <-] & Ha). congruence.
      * split; [by exists answer, e|done].
    + split; [done|]. by intros (a & e' & ? & _).
Qed.

End run.
End LangchainFacts.

(** ** The tool loop of [src/news_extraction_playwright.py] *)

Module ToolLoopFacts.
Import Playwright ToolDoubles.

Section tools.
Variable lower : str → str.
Variable json_loads : str → option pyobj.
Variable container_str : pyobj → str.
Variable scalar_truthy : str → bool.
Variable call_model : list message → answer model_response.
Variable fetch : pyobj → answer str.
Variable system_prompt user_prompt : str.

Local Abbreviation execute_tool_call :=
  (execute_tool_call json_loads scalar_truthy fetch).
Local Abbreviation execute_tool_calls :=
  (execute_tool_calls json_loads scalar_truthy fetch).
Local Abbreviation tool_loop :=
  (tool_loop lower json_loads container_str scalar_truthy call_model fetch).
Local Abbreviation run_news_extraction :=
  (run_news_extraction lower json_loads container_str scalar_truthy call_model fetch
     system_prompt user_prompt).

(** Once [iteration] rounds are done, [max_iterations - iteration + 1] tests
    of the loop condition are enough, and more fuel changes nothing. *)
Lemma tool_loop_fuel fuel fuel' messages response iteration :
  (Z.to_nat (max_iterations - iteration) < fuel)%nat → (fuel ≤ fuel')%nat →
  ∃ r, tool_loop fuel messages response iteration = Some r ∧
       tool_loop fuel' messages response iteration = Some r.
Proof.
  revert fuel' messages response iteration.
  induction fuel as [|fuel IH]; intros fuel' messages response iteration Hfuel Hle; [lia|].
  destruct fuel' as [|fuel']; [lia|]. simpl.
  destruct (pending_calls response) as [|call calls]; [by eexists|].
  destruct (Z.ltb_spec iteration max_iterations) as [Hlt|Hge]; [|by eexists].
  destruct (Playwright.execute_tool_calls _ _ _ _ _) as [messages'|e]; [|by eexists].
  destruct (call_model messages') as [response'|e]; [|by eexists].
  apply IH; lia.
Qed.

(** X27: the tool loop always ends: whatever the model answers, six tests
    of the loop condition (five rounds of tool calls at most) are enough for
    [run_news_extraction] to return or raise, and more fuel gives the same
    outcome. *)
Theorem run_news_extraction_terminates url fuel :
  (6 ≤ fuel)%nat →
  ∃ r, run_news_extraction 6 url = Some r ∧ run_news_extraction fuel url = Some r.
Proof.
  intros Hfuel. unfold Playwright.run_news_extraction.
  destruct (call_model _) as [response|e]; [|by eexists].
  apply tool_loop_fuel; [unfold max_iterations; lia|lia].
Qed.

(** One tool call either raises, whatever the messages so far, or is a
    call of [fetch_url_content] that appends the fetched text as one tool
    message. *)
Lemma execute_tool_call_shape call :
  (∃ e, ∀ messages, execute_tool_call call messages = Raise e) ∨
  (function_name call = of_ascii "fetch_url_content" ∧
   ∃ value text,
     fetch value = Return text ∧
     ∀ messages, execute_tool_call call messages
                 = Return (messages ++ [Tool (of_ascii "fetch_url_content") text])).
Proof.
  unfold Playwright.execute_tool_call.
  destruct (match (if obj_truthy _ _ then _ else _) with OStr _ => _ | _ => _ end)
    as [payload|e]; simpl; [|by left; exists e].
  destruct (decide (function_name call = of_ascii "fetch_url_content")) as [Hname|];
    [|by left; exists ValueError].
  destruct payload as [| | |items|]; try (by left; exists AttributeError).
  unfold call_fetch.
  destruct items as [|[key value] [|??]]; simpl; try (by left; exists TypeError).
  destruct (decide (key = of_ascii "url")) as [Hkey|]; simpl;
    [|by left; exists TypeError].
  destruct (fetch value) as [text|err] eqn:Hfetch; simpl; [|by left; exists err].
  right. split; [done|]. exists value, text. split; [done|].
  intros messages. by rewrite Hname.
Qed.

(** X28: a round of tool calls that does not raise has executed only
    [fetch_url_content] and has appended to the messages exactly one tool
    message per call, in call order: the message at position [i] carries the
    text that call [i] fetches, the one this call appends when it is executed
    on its own; the earlier messages are untouched. *)
Theorem execute_tool_calls_appends calls messages messages' :
  execute_tool_calls calls messages = Return messages' →
  ∃ texts,
    messages' = messages ++ (Tool (of_ascii "fetch_url_content") <$> texts) ∧
    Forall2 (λ call text,
               function_name call = of_ascii "fetch_url_content" ∧
               (∃ value, fetch value = Return text) ∧
               ∀ earlier, execute_tool_call call earlier
                          = Return (earlier ++ [Tool (of_ascii "fetch_url_content") text]))
            calls texts.
Proof.
  revert messages. induction calls as [|call calls IH]; intros messages; simpl.
  - intros [= <-]. exists []. split; [by rewrite app_nil_r|constructor].
  - destruct (execute_tool_call_shape call) as [[e Hraise]|(Hname & value & text & Hfetch & Hcall)].
    + by rewrite Hraise.
    + rewrite Hcall. simpl. intros Hrest.
      destruct (IH _ Hrest) as (texts & -> & Hall).
      exists (text :: texts). split; [by rewrite <- app_assoc|].
      constructor; [|done]. split; [done|]. split; [by exists value|done].
Qed.

End tools.

(** *** Runs on stand-ins *)

Lemma execute_tool_calls_appends_witness :
  let fetch_name := of_ascii "fetch_url_content" in
  let call1 := mkToolCall fetch_name (ODict [(of_ascii "url", OStr (of_ascii "x"))]) in
  let call2 := mkToolCall fetch_name (ODict [(of_ascii "url", OStr (of_ascii "y"))]) in
  let messages := [System (of_ascii "s"); User (of_ascii "u")] in
  let messages' := messages ++ [Tool fetch_name (of_ascii "page of x");
                                Tool fetch_name (of_ascii "page of y")] in
  execute_tool_calls (λ _, None) (λ _, true) url_fetch [call1; call2] messages
  = Return messages' ∧
  ∃ texts,
    messages' = messages ++ (Tool fetch_name <$> texts) ∧
    Forall2 (λ call text,
               function_name call = fetch_name ∧
               (∃ value, url_fetch value = Return text) ∧
               ∀ earlier, execute_tool_call (λ _, None) (λ _, true) url_fetch call earlier
                          = Return (earlier ++ [Tool fetch_name text]))
            [call1; call2] texts.
Proof.
  intros fetch_name call1 call2 messages messages'.
  assert (execute_tool_calls (λ _, None) (λ _, true) url_fetch [call1; call2] messages
          = Return messages') as Hrun by (vm_compute; reflexivity).
  split; [exact Hrun|].
  exact (execute_tool_calls_appends (λ _, None) (λ _, true) url_fetch
           [call1; call2] messages messages' Hrun).
Defined.

Lemma run_news_extraction_terminates_witness :
  let run := run_news_extraction lower_ascii_only (λ _, None) (λ _, []) (λ _, true)
               insistent_model page_fetch (of_ascii "s") (of_ascii "u") in
  (6 ≤ 9)%nat ∧
  run 5%nat (of_ascii "http://x") = None ∧
  run 6%nat (of_ascii "http://x") = Some (Return (mkNews [] [of_ascii "Ana"] [])) ∧
  ∃ r, run 6%nat (of_ascii "http://x") = Some r ∧ run 9%nat (of_ascii "http://x") = Some r.
Proof.
  intros run. split; [lia|]. split; [vm_compute; reflexivity|].
  split; [vm_compute; reflexivity|].
  apply (run_news_extraction_terminates lower_ascii_only (λ _, None) (λ _, []) (λ _, true)
           insistent_model page_fetch (of_ascii "s") (of_ascii "u") (of_ascii "http://x") 9).
  lia.
Defined.

End ToolLoopFacts.
